(** * dtcc-utils: the publication reconciliation pipeline of
      [scripts/dtcc-get-authors.py]

    A shallow embedding of the [Publication] dataclass, of
    [merge_publications], of the sort step and the ORCID check of [main]
    and of [save_to_csv], with the properties of the specification proved
    or refuted over it.

    Modelling conventions.
    - Python [str] is [string]; text is taken to be ASCII, so that
      [str.lower] is the map of [A-Z] to [a-z] and the regex class [\d]
      is [0-9].  Comparison of strings is by character code, as in Python.
    - Python [int] is [Z]; [Optional[T]] is [option T]; [None] is [None].
    - Objects are mutable and shared: a [heap] holds the [Publication]
      objects and a Python list of publications is a list of addresses.
    - Exceptions are the [Raise] results of [result]. *)

From Stdlib Require Import ZArith Ascii String DecimalString DecimalZ.
From stdpp Require Import base tactics option list strings sorting.

Local Open Scope Z_scope.

(** ** Python values *)

Module Py.

(** [c.lower()] on one ASCII character. *)
Definition lower_ascii (c : ascii) : ascii :=
  let n := N_of_ascii c in
  if ((65 <=? n) && (n <=? 90))%N then ascii_of_N (n + 32) else c.

(** [s.lower()] *)
Fixpoint lower (s : string) : string :=
  match s with
  | EmptyString => EmptyString
  | String c s' => String (lower_ascii c) (lower s')
  end.

(** [str(n)] for an [int]. *)
Definition str_int (n : Z) : string := NilZero.string_of_int (Z.to_int n).

(** [str(v)] for an [Optional[int]], as an f-string field prints it. *)
Definition str_opt_int (v : option Z) : string :=
  match v with
  | None => "None"
  | Some n => str_int n
  end.

(** Truth value of an [Optional[str]]: [None] and [""] are false. *)
Definition truthy_str (v : option string) : bool :=
  match v with
  | None => false
  | Some EmptyString => false
  | Some _ => true
  end.

(** Truth value of an [Optional[int]]: [None] and [0] are false. *)
Definition truthy_int (v : option Z) : bool :=
  match v with
  | None => false
  | Some n => negb (n =? 0)
  end.

(** Truth value of a list: the empty list is false. *)
Definition truthy_list {A} (l : list A) : bool :=
  match l with
  | [] => false
  | _ :: _ => true
  end.

(** [sep.join(l)] *)
Fixpoint join (sep : string) (l : list string) : string :=
  match l with
  | [] => ""
  | [x] => x
  | x :: l' => x +:+ sep +:+ join sep l'
  end.

(** The exceptions the embedded code can raise.  [BadReference] is the
    store's own: a reference to no object, which no Python run has. *)
Inductive exn : Set :=
  | AttributeError
  | ValueError
  | BadReference.

Inductive result (A : Type) : Type :=
  | Ok (a : A)
  | Raise (e : exn).
Arguments Ok {A} a.
Arguments Raise {A} e.

#[global] Instance result_ret : MRet result := fun A a => Ok a.
#[global] Instance result_bind : MBind result := fun A B f m =>
  match m with
  | Ok a => f a
  | Raise e => Raise e
  end.

(** [v.lower()] where [v : Optional[str]]: [None] has no such attribute. *)
Definition attr_lower (v : option string) : result string :=
  match v with
  | Some s => Ok (lower s)
  | None => Raise AttributeError
  end.

End Py.

Export Py.

(** ** The Publication dataclass *)

Record Publication : Type := mkPublication {
  title : string;
  authors : list string;
  year : option Z;
  doi : option string;
  journal : option string;
  volume : option string;
  issue : option string;
  pages : option string;
  publisher : option string;
  url : option string;
  abstract : option string;
  citations : option Z;
  type : option string;
  source : string
}.

(** [Publication.__eq__] (the [isinstance] test holds by typing). *)
Definition Publication_eq (self other : Publication) : result bool :=
  if truthy_str (doi self) && truthy_str (doi other) then
    a ← attr_lower (doi self);
    b ← attr_lower (doi other);
    Ok (bool_decide (a = b))
  else
    Ok (bool_decide (lower (title self) = lower (title other))
        && bool_decide (year self = year other)).

(** The key of [merge_publications]:
    [pub.doi.lower() if pub.doi else f"{pub.title.lower()}_{pub.year}"] *)
Definition identity_key (pub : Publication) : result string :=
  if truthy_str (doi pub) then attr_lower (doi pub)
  else Ok (lower (title pub) +:+ "_" +:+ str_opt_int (year pub)).

(** ** The object store *)

Abbreviation addr := nat.
Abbreviation heap := (list Publication).

(** A computation over the store that may raise. *)
Definition Exec (A : Type) : Type := heap -> result (A * heap).

#[global] Instance Exec_ret : MRet Exec := fun A a h => Ok (a, h).
#[global] Instance Exec_bind : MBind Exec := fun A B f m h =>
  match m h with
  | Ok (a, h') => f a h'
  | Raise e => Raise e
  end.

(** [r.f] *)
Definition getattr {A} (r : addr) (f : Publication -> A) : Exec A :=
  fun h => match h !! r with
           | Some o => Ok (f o, h)
           | None => Raise BadReference
           end.

(** [r.f = v], with [upd] the update of field [f] to [v]. *)
Definition setattr (r : addr) (upd : Publication -> Publication) : Exec unit :=
  fun h => match h !! r with
           | Some o => Ok (tt, <[r := upd o]> h)
           | None => Raise BadReference
           end.

Definition lift {A} (m : result A) : Exec A :=
  fun h => match m with
           | Ok a => Ok (a, h)
           | Raise e => Raise e
           end.

(** Field updates of a [Publication] object ([o.f = v]). *)

Definition set_source (v : string) (o : Publication) : Publication :=
  {| title := title o; authors := authors o; year := year o; doi := doi o;
     journal := journal o; volume := volume o; issue := issue o;
     pages := pages o; publisher := publisher o; url := url o;
     abstract := abstract o; citations := citations o; type := type o;
     source := v |}.

Definition set_authors (v : list string) (o : Publication) : Publication :=
  {| title := title o; authors := v; year := year o; doi := doi o;
     journal := journal o; volume := volume o; issue := issue o;
     pages := pages o; publisher := publisher o; url := url o;
     abstract := abstract o; citations := citations o; type := type o;
     source := source o |}.

Definition set_journal (v : option string) (o : Publication) : Publication :=
  {| title := title o; authors := authors o; year := year o; doi := doi o;
     journal := v; volume := volume o; issue := issue o; pages := pages o;
     publisher := publisher o; url := url o; abstract := abstract o;
     citations := citations o; type := type o; source := source o |}.

Definition set_abstract (v : option string) (o : Publication) : Publication :=
  {| title := title o; authors := authors o; year := year o; doi := doi o;
     journal := journal o; volume := volume o; issue := issue o;
     pages := pages o; publisher := publisher o; url := url o; abstract := v;
     citations := citations o; type := type o; source := source o |}.

Definition set_url (v : option string) (o : Publication) : Publication :=
  {| title := title o; authors := authors o; year := year o; doi := doi o;
     journal := journal o; volume := volume o; issue := issue o;
     pages := pages o; publisher := publisher o; url := v;
     abstract := abstract o; citations := citations o; type := type o;
     source := source o |}.

Definition set_volume (v : option string) (o : Publication) : Publication :=
  {| title := title o; authors := authors o; year := year o; doi := doi o;
     journal := journal o; volume := v; issue := issue o; pages := pages o;
     publisher := publisher o; url := url o; abstract := abstract o;
     citations := citations o; type := type o; source := source o |}.

Definition set_issue (v : option string) (o : Publication) : Publication :=
  {| title := title o; authors := authors o; year := year o; doi := doi o;
     journal := journal o; volume := volume o; issue := v; pages := pages o;
     publisher := publisher o; url := url o; abstract := abstract o;
     citations := citations o; type := type o; source := source o |}.

Definition set_pages (v : option string) (o : Publication) : Publication :=
  {| title := title o; authors := authors o; year := year o; doi := doi o;
     journal := journal o; volume := volume o; issue := issue o; pages := v;
     publisher := publisher o; url := url o; abstract := abstract o;
     citations := citations o; type := type o; source := source o |}.

Definition set_publisher (v : option string) (o : Publication) : Publication :=
  {| title := title o; authors := authors o; year := year o; doi := doi o;
     journal := journal o; volume := volume o; issue := issue o;
     pages := pages o; publisher := v; url := url o; abstract := abstract o;
     citations := citations o; type := type o; source := source o |}.

Definition set_citations (v : option Z) (o : Publication) : Publication :=
  {| title := title o; authors := authors o; year := year o; doi := doi o;
     journal := journal o; volume := volume o; issue := issue o;
     pages := pages o; publisher := publisher o; url := url o;
     abstract := abstract o; citations := v; type := type o;
     source := source o |}.

Definition set_type (v : option string) (o : Publication) : Publication :=
  {| title := title o; authors := authors o; year := year o; doi := doi o;
     journal := journal o; volume := volume o; issue := issue o;
     pages := pages o; publisher := publisher o; url := url o;
     abstract := abstract o; citations := citations o; type := v;
     source := source o |}.

(** ** Data consolidation: [merge_publications] *)

(** [if not existing.f and pub.f: existing.f = pub.f] *)
Definition fill_if_missing {A} (truthy : A -> bool) (get : Publication -> A)
    (set : A -> Publication -> Publication) (existing pub : addr) : Exec unit :=
  e ← getattr existing get;
  if truthy e then mret tt
  else
    p ← getattr pub get;
    if truthy p then setattr existing (set p) else mret tt.

(** The [else] branch of the loop body: [pub] is merged into the object
    [existing] already stored under its key. *)
Definition merge_into (existing pub : addr) : Exec unit :=
  s1 ← getattr existing source;
  s2 ← getattr pub source;
  _ ← setattr existing (set_source (s1 +:+ ", " +:+ s2));
  _ ← fill_if_missing truthy_list authors set_authors existing pub;
  _ ← fill_if_missing truthy_str journal set_journal existing pub;
  _ ← fill_if_missing truthy_str abstract set_abstract existing pub;
  _ ← fill_if_missing truthy_str url set_url existing pub;
  _ ← fill_if_missing truthy_str volume set_volume existing pub;
  _ ← fill_if_missing truthy_str issue set_issue existing pub;
  _ ← fill_if_missing truthy_str pages set_pages existing pub;
  _ ← fill_if_missing truthy_str publisher set_publisher existing pub;
  _ ← fill_if_missing truthy_int citations set_citations existing pub;
  fill_if_missing truthy_str type set_type existing pub.

(** The dict [merged]: keys in insertion order, each with the address of
    the object stored under it. *)
Abbreviation dict := (list (string * nat)).

(** [merged.get(key)]: the value under [key], if [key in merged]. *)
Fixpoint dict_get (key : string) (merged : dict) : option addr :=
  match merged with
  | [] => None
  | (k, a) :: merged' =>
      if bool_decide (k = key) then Some a else dict_get key merged'
  end.

(** [for pub in publications_list: ...] *)
Fixpoint merge_loop (publications_list : list addr) (merged : dict)
    : Exec dict :=
  match publications_list with
  | [] => mret merged
  | pub :: rest =>
      o ← getattr pub id;
      key ← lift (identity_key o);
      match dict_get key merged with
      | None => merge_loop rest (merged ++ [(key, pub)])
      | Some existing =>
          _ ← merge_into existing pub;
          merge_loop rest merged
      end
  end.

(** [merge_publications(publications_list)]; the result is
    [list(merged.values())]. *)
Definition merge_publications (publications_list : list addr)
    : Exec (list addr) :=
  merged ← merge_loop publications_list [];
  mret (merged.*2).

(** Reading a list of references off the store. *)
Fixpoint deref_all (h : heap) (l : list addr) : result (list Publication) :=
  match l with
  | [] => Ok []
  | a :: l' =>
      match h !! a with
      | Some o => os ← deref_all h l'; Ok (o :: os)
      | None => Raise BadReference
      end
  end.

(** The engine on a sequence of records, as [main] uses it: each record
    of [xs] is an object of its own, [merge_publications] runs on the list
    of these objects, and the records of the returned list are read off
    the final store. *)
Definition reconcile (xs : list Publication) : result (list Publication) :=
  match merge_publications (seq 0 (length xs)) xs with
  | Ok (out, h) => deref_all h out
  | Raise e => Raise e
  end.

(** The store [reconcile] leaves behind: the input objects after the run. *)
Definition inputs_after (xs : list Publication) : result heap :=
  match merge_publications (seq 0 (length xs)) xs with
  | Ok (_, h) => Ok h
  | Raise e => Raise e
  end.

(** ** Sorting: the sort step of [main] *)

(** [l.sort(key=key, reverse=reverse)].  The built-in sort is stable, and
    stays so under [reverse=True]: records with equal keys keep their
    order, the others come in descending order of key.  The model is the
    stable insertion sort with the comparison [le] on keys, turned around
    for [reverse]. *)
Section ListSort.
Context {A K : Type} (le : K -> K -> bool) (key : A -> K).

Definition goes_before (reverse : bool) (x y : A) : bool :=
  if reverse then le (key y) (key x) else le (key x) (key y).

Fixpoint sort_insert (reverse : bool) (x : A) (l : list A) : list A :=
  match l with
  | [] => [x]
  | y :: l' =>
      if goes_before reverse x y then x :: y :: l'
      else y :: sort_insert reverse x l'
  end.

Definition list_sort (reverse : bool) (l : list A) : list A :=
  foldr (sort_insert reverse) [] l.
End ListSort.

(** [v if v else 0] *)
Definition or_zero (v : option Z) : Z :=
  match v with
  | Some n => if truthy_int v then n else 0
  | None => 0
  end.

(** [lambda x: (x.year if x.year else 0)] *)
Definition year_key (x : Publication) : Z := or_zero (year x).
(** [lambda x: x.title.lower()] *)
Definition title_key (x : Publication) : string := lower (title x).
(** [lambda x: (x.citations if x.citations else 0)] *)
Definition citations_key (x : Publication) : Z := or_zero (citations x).

(** The sort step of [main]; [sort] and [reverse] are [args.sort] and
    [args.reverse].  The step reads the objects and assigns to none, so
    it is given on the records of [merged_pubs]. *)
Definition sort_publications (sort : option string) (reverse : bool)
    (merged_pubs : list Publication) : list Publication :=
  let sort_key :=
    match sort with
    | Some s => if truthy_str sort then s else "year"
    | None => "year"
    end in
  if bool_decide (sort_key = "year") then
    list_sort Z.leb year_key reverse merged_pubs
  else if bool_decide (sort_key = "title") then
    list_sort String.leb title_key reverse merged_pubs
  else if bool_decide (sort_key = "citations") then
    list_sort Z.leb citations_key reverse merged_pubs
  else merged_pubs.

(** ** The ORCID check of [main] *)

(** One position of a pattern: a set of characters, [\d] when [digits]
    is set, together with the characters listed. *)
Record re_set : Type := ReSet { digits : bool; chars : list ascii }.

Definition is_digit (c : ascii) : bool :=
  let n := N_of_ascii c in ((48 <=? n) && (n <=? 57))%N.

Definition re_set_matches (r : re_set) (c : ascii) : bool :=
  (digits r && is_digit c) || bool_decide (c ∈ chars r).

(** Matching a sequence of positions at the start of [s]; the rest of
    [s] is returned. *)
Fixpoint re_match_sets (p : list re_set) (s : string) : option string :=
  match p with
  | [] => Some s
  | r :: p' =>
      match s with
      | EmptyString => None
      | String c s' =>
          if re_set_matches r c then re_match_sets p' s' else None
      end
  end.

Definition newline : ascii := ascii_of_N 10.

(** [$] (no MULTILINE flag): the end of the string, or the place just
    before a newline that ends the string. *)
Definition re_at_dollar (s : string) : bool :=
  bool_decide (s = EmptyString) || bool_decide (s = String newline EmptyString).

(** [re.match("^" p "$", s)] as a truth value. *)
Definition re_match (p : list re_set) (s : string) : bool :=
  match re_match_sets p s with
  | Some rest => re_at_dollar rest
  | None => false
  end.

Definition re_d : re_set := ReSet true [].
Definition re_hyphen : re_set := ReSet false ["-"%char].

(** [r"^\d{4}-\d{4}-\d{4}-\d{3}[\dX]$"] *)
Definition orcid_pattern : list re_set :=
  replicate 4 re_d ++ [re_hyphen] ++ replicate 4 re_d ++ [re_hyphen] ++
  replicate 4 re_d ++ [re_hyphen] ++ replicate 3 re_d ++ [ReSet true ["X"%char]].

(** What a run of [main] does, as far as it is observable: [print(s)],
    [print(s, file=sys.stderr)] and the call [session.get(url, ...)]. *)
Inductive event : Type :=
  | Print (s : string)
  | PrintErr (s : string)
  | HttpGet (url : string).

Definition is_network (e : event) : bool :=
  match e with
  | HttpGet _ => true
  | _ => false
  end.

Section Main.
(** What [main] does once the request of [get_orcid_profile] is sent:
    the events that follow and the exit status.  It depends on the
    answers of the services. *)
Variable after_profile_request : string -> list event * Z.

(** [main()], with [orcid] the command-line identifier [args.orcid]. *)
Definition main (orcid : string) : list event * Z :=
  if negb (re_match orcid_pattern orcid) then
    ([PrintErr "Invalid ORCID format. Expected: XXXX-XXXX-XXXX-XXXX"], 1)
  else
    let '(evs, status) := after_profile_request orcid in
    (Print ("Retrieving publications for ORCID: " +:+ orcid)
       :: HttpGet ("https://pub.orcid.org/v3.0/" +:+ orcid) :: evs,
     status).
End Main.

(** The structural check in the words of the specification: four groups
    of four digits separated by hyphens, the last character a digit or X. *)
Definition orcid_group (g : list ascii) : bool :=
  bool_decide (length g = 4%nat) && forallb is_digit g.

Definition orcid_last_group (g : list ascii) : bool :=
  match g with
  | [a; b; c; d] =>
      is_digit a && is_digit b && is_digit c
      && (is_digit d || bool_decide (d = "X"%char))
  | _ => false
  end.

Definition structurally_valid_orcid (s : string) : bool :=
  match list_ascii_of_string s with
  | [a1; a2; a3; a4; h1; b1; b2; b3; b4; h2; c1; c2; c3; c4; h3;
     d1; d2; d3; d4] =>
      orcid_group [a1; a2; a3; a4] && bool_decide (h1 = "-"%char)
      && orcid_group [b1; b2; b3; b4] && bool_decide (h2 = "-"%char)
      && orcid_group [c1; c2; c3; c4] && bool_decide (h3 = "-"%char)
      && orcid_last_group [d1; d2; d3; d4]
  | _ => false
  end.

(** ** CSV output: [save_to_csv] *)

(** The values a [Publication] attribute holds. *)
Inductive value : Type :=
  | VNone
  | VStr (s : string)
  | VInt (n : Z)
  | VList (l : list string).

Definition of_opt_str (v : option string) : value :=
  match v with
  | Some s => VStr s
  | None => VNone
  end.

Definition of_opt_int (v : option Z) : value :=
  match v with
  | Some n => VInt n
  | None => VNone
  end.

(** [vars(pub)]: the attributes of the object, in declaration order. *)
Definition vars (pub : Publication) : list (string * value) :=
  [("title", VStr (title pub)); ("authors", VList (authors pub));
   ("year", of_opt_int (year pub)); ("doi", of_opt_str (doi pub));
   ("journal", of_opt_str (journal pub)); ("volume", of_opt_str (volume pub));
   ("issue", of_opt_str (issue pub)); ("pages", of_opt_str (pages pub));
   ("publisher", of_opt_str (publisher pub)); ("url", of_opt_str (url pub));
   ("abstract", of_opt_str (abstract pub));
   ("citations", of_opt_int (citations pub)); ("type", of_opt_str (type pub));
   ("source", VStr (source pub))].

(** [d[k] = v] on a dict of attribute values. *)
Fixpoint dict_set (k : string) (v : value) (d : list (string * value))
    : list (string * value) :=
  match d with
  | [] => [(k, v)]
  | (k', v') :: d' =>
      if bool_decide (k' = k) then (k, v) :: d'
      else (k', v') :: dict_set k v d'
  end.

(** [d.get(k, default)] *)
Fixpoint dict_get_default (k : string) (default : value)
    (d : list (string * value)) : value :=
  match d with
  | [] => default
  | (k', v') :: d' =>
      if bool_decide (k' = k) then v' else dict_get_default k default d'
  end.

Definition fieldnames : list string :=
  ["title"; "authors"; "year"; "journal"; "volume"; "issue";
   "pages"; "doi"; "url"; "citations"; "type"; "source"].

(** The conversion of [csv.DictWriter.writerow] with the defaults the
    code leaves in place ([restval=""], [extrasaction="raise"]): a key of
    the row that is no field name raises [ValueError]; otherwise the row
    is the values of the field names, in order. *)
Definition DictWriter_row (fields : list string)
    (rowdict : list (string * value)) : result (list value) :=
  let wrong_fields := filter (fun k => k ∉ fields) (rowdict.*1) in
  match wrong_fields with
  | [] => Ok (map (fun k => dict_get_default k (VStr "") rowdict) fields)
  | _ :: _ => Raise ValueError
  end.

(** [pub_dict] of the loop body of [save_to_csv]. *)
Definition csv_pub_dict (pub : Publication) : list (string * value) :=
  dict_set "authors"
    (VStr (if truthy_list (authors pub) then join "; " (authors pub) else ""))
    (vars pub).

(** [for pub in publications: ... writer.writerow(pub_dict)]; [file] is
    the rows written so far. *)
Fixpoint csv_write_rows (publications : list Publication)
    (file : list (list value)) : list (list value) * result unit :=
  match publications with
  | [] => (file, Ok tt)
  | pub :: rest =>
      match DictWriter_row fieldnames (csv_pub_dict pub) with
      | Ok row => csv_write_rows rest (file ++ [row])
      | Raise e => (file, Raise e)
      end
  end.

(** [save_to_csv(publications, filename)]: the rows of the file and the
    outcome of the call. *)
Definition save_to_csv (publications : list Publication)
    : list (list value) * result unit :=
  csv_write_rows publications [map VStr fieldnames].

(** ** Derived views used in the statements *)

(** The key of a record as a plain string ([identity_key] never raises,
    see [identity_key_total]). *)
Definition key_of (pub : Publication) : string :=
  match identity_key pub with
  | Ok k => k
  | Raise _ => ""
  end.

(** What [if not existing.f and pub.f: existing.f = pub.f] makes of the
    record [x] of [existing], given the record [y] of [pub]. *)
Definition fill_field {A} (truthy : A -> bool) (get : Publication -> A)
    (set : A -> Publication -> Publication) (x y : Publication) : Publication :=
  if truthy (get x) then x
  else if truthy (get y) then set (get y) x else x.

(** What [merge_into] makes of the record [x] of [existing], given the
    record [y] of [pub] (see [merge_into_run]). *)
Definition merge_record (x y : Publication) : Publication :=
  let x := set_source (source x +:+ ", " +:+ source y) x in
  let x := fill_field truthy_list authors set_authors x y in
  let x := fill_field truthy_str journal set_journal x y in
  let x := fill_field truthy_str abstract set_abstract x y in
  let x := fill_field truthy_str url set_url x y in
  let x := fill_field truthy_str volume set_volume x y in
  let x := fill_field truthy_str issue set_issue x y in
  let x := fill_field truthy_str pages set_pages x y in
  let x := fill_field truthy_str publisher set_publisher x y in
  let x := fill_field truthy_int citations set_citations x y in
  fill_field truthy_str type set_type x y.

(** The value a fill-if-missing field ends with: the old one if it is
    true, else the incoming one if that is true, else the old one. *)
Definition filled {A} (truthy : A -> bool) (a b : A) : A :=
  if truthy a then a else if truthy b then b else a.


(** The key of the object at [a]. *)
Definition key_at (h : heap) (a : addr) : option string := key_of <$> h !! a.

Definition keys_at (h : heap) (refs : list addr) : list string :=
  omap (key_at h) refs.

(** The entries the loop adds to the dict: of the references [refs], in
    order, those whose key is neither in [seen] nor the key of an earlier
    one (see [merge_loop_spec]). *)
Fixpoint first_seen (h : heap) (seen : list string) (refs : list addr)
    : list (string * addr) :=
  match refs with
  | [] => []
  | p :: rest =>
      match h !! p with
      | None => []
      | Some o =>
          if bool_decide (key_of o ∈ seen) then first_seen h seen rest
          else (key_of o, p) :: first_seen h (seen ++ [key_of o]) rest
      end
  end.

(** The invariant of the dict: its keys are distinct and each is the key
    of the object stored under it. *)
Definition dict_ok (h : heap) (merged : dict) : Prop :=
  NoDup (merged.*1) /\
  forall k a, (k, a) ∈ merged -> exists o, h !! a = Some o /\ key_of o = k.

(** [h'] has the objects of [h], with title, year and DOI as in [h] and
    a source label that is no shorter. *)
Definition same_ids (h h' : heap) : Prop :=
  length h' = length h /\
  forall a o, h !! a = Some o ->
    exists o', h' !! a = Some o' /\
      title o' = title o /\ year o' = year o /\ doi o' = doi o /\
      (String.length (source o) <= String.length (source o'))%nat.


(** The keys of [ks] in first-seen order: each key once, at the place
    of its first occurrence, leaving out those in [seen]. *)
Fixpoint first_occurrences (seen ks : list string) : list string :=
  match ks with
  | [] => []
  | k :: ks' =>
      if bool_decide (k ∈ seen) then first_occurrences seen ks'
      else k :: first_occurrences (seen ++ [k]) ks'
  end.

(** The dict that [merge_publications] ends with on the records [xs]. *)
Definition entries (xs : list Publication) : list (string * addr) :=
  first_seen xs [] (seq 0 (length xs)).


(** No reference after an occurrence of [a] in [refs] has the key of [a]. *)
Fixpoint no_later_dup (h : heap) (a : addr) (refs : list addr) : Prop :=
  match refs with
  | [] => True
  | p :: rest =>
      (p = a -> forall k, key_at h a = Some k -> k ∉ keys_at h rest)
      /\ no_later_dup h a rest
  end.


(** The identity of the specification's data model, in its words: two
    records denote the same publication iff (a) both have a non-empty DOI
    and the DOIs are equal without regard to case, or (b) at least one
    lacks a DOI and their lowercased titles are equal and their years are
    equal ([None] equal to [None]). *)
Definition spec_same_publication (a b : Publication) : Prop :=
  (truthy_str (doi a) = true /\ truthy_str (doi b) = true /\
   attr_lower (doi a) = attr_lower (doi b))
  \/ ((truthy_str (doi a) = false \/ truthy_str (doi b) = false) /\
      lower (title a) = lower (title b) /\ year a = year b).

(** The fallback key of a record, [f"{pub.title.lower()}_{pub.year}"]. *)
Definition fallback_key (pub : Publication) : string :=
  lower (title pub) +:+ "_" +:+ str_opt_int (year pub).

(** A record with nothing but a title and, possibly, a year. *)
Definition titled (t : string) (y : option Z) : Publication :=
  mkPublication t [] y None None None None None None None None None None "".
Definition bare (t : string) : Publication := titled t None.

(** Sample records. *)
Definition pubA : Publication :=
  mkPublication "Alpha" [] (Some 2019) (Some "10.1/X") None None None None
                None None None None None "A".
Definition pubB : Publication :=
  mkPublication "Alpha (preprint)" [] (Some 2019) (Some "10.1/x") (Some "J")
                None None None None None None None None "B".
(** As [pubA], without a DOI. *)
Definition pubA_no_doi : Publication :=
  mkPublication "Alpha" [] (Some 2019) None None None None None
                None None None None None "C".
(** As [pubA], without a year; and with the year 2020. *)
Definition pubA_no_year : Publication :=
  mkPublication "Alpha" [] None (Some "10.1/X") None None None None
                None None None None None "A".
Definition pubA_2020 : Publication :=
  mkPublication "Alpha" [] (Some 2020) (Some "10.1/x") None None None None
                None None None None None "D".


(** As [pubA], with another DOI. *)
Definition pubA_other_doi : Publication :=
  mkPublication "Alpha" [] (Some 2019) (Some "10.2/y") None None None None
                None None None None None "E".

(** Records for the fill-if-empty examples of the specification. *)
Definition with_journal (j : option string) (src : string) : Publication :=
  mkPublication "Foo" [] (Some 2020) None j None None None None None None None
                None src.


(** [out] is [l] sorted by [key]: the same records, in ascending order
    of key, or descending when [reverse] is set, and those with the same
    key in the order they have in [l]. *)
Definition stable_sort_of {A K} `{EqDecision K} (le : K -> K -> bool)
    (key : A -> K) (reverse : bool) (l out : list A) : Prop :=
  out ≡ₚ l /\
  StronglySorted (fun x y => if reverse then le (key y) (key x) = true
                             else le (key x) (key y) = true) out /\
  forall k, filter (fun x => key x = k) out = filter (fun x => key x = k) l.

(** Three records of the same year. *)
Definition same_year_records : list Publication :=
  [titled "b" (Some 2020); titled "c" (Some 2020); titled "a" (Some 2020)].


(** An identifier of the right form followed by a newline. *)
Definition orcid_with_newline : string :=
  "0000-0002-1825-0097" +:+ String newline EmptyString.

(** The character [c] occurs in [s]. *)
Definition string_has (c : ascii) (s : string) : Prop :=
  c ∈ list_ascii_of_string s.

(** The characters of a printed integer. *)
Definition sign_or_digit (c : ascii) : Prop := c = "-"%char \/ is_digit c = true.


(** ** Further code of [dtcc-get-authors.py] *)

(** *** [Publication.__hash__] *)

(** What [__hash__] hands to [hash]: the lowercased DOI, or the pair of
    the lowercased title and the year. *)
Inductive hashed : Type :=
  | HStr (s : string)
  | HPair (t : string) (y : option Z).

Definition Publication_hash_arg (self : Publication) : result hashed :=
  if truthy_str (doi self) then s ← attr_lower (doi self); Ok (HStr s)
  else Ok (HPair (lower (title self)) (year self)).

(** [Publication.__hash__], for a hash function [hash] of the
    interpreter. *)
Definition Publication_hash (hash : hashed -> Z) (self : Publication)
    : result Z :=
  v ← Publication_hash_arg self; Ok (hash v).

(** *** [format_citation] *)

(** [str(v)] for an [Optional[str]]. *)
Definition str_opt_str (v : option string) : string :=
  match v with
  | Some s => s
  | None => "None"
  end.

(** [v is not None] *)
Definition is_not_None {A} (v : option A) : bool :=
  match v with
  | Some _ => true
  | None => false
  end.

(** [format_citation(pub)] *)
Definition format_citation (pub : Publication) : string :=
  let author_str :=
    if truthy_list (authors pub) then
      match authors pub with
      | [a] => a
      | [a; b] => a +:+ " and " +:+ b
      | a :: _ => a +:+ " et al."
      | [] => ""
      end
    else "" in
  let year_str :=
    if truthy_int (year pub) then " (" +:+ str_opt_int (year pub) +:+ ")"
    else "" in
  let title_str := ". " +:+ title pub in
  let journal_str :=
    if truthy_str (journal pub) then
      let journal_str := ". " +:+ str_opt_str (journal pub) in
      let details := [] in
      let details :=
        if truthy_str (volume pub)
        then details ++ ["vol. " +:+ str_opt_str (volume pub)] else details in
      let details :=
        if truthy_str (issue pub)
        then details ++ ["no. " +:+ str_opt_str (issue pub)] else details in
      let details :=
        if truthy_str (pages pub)
        then details ++ ["pp. " +:+ str_opt_str (pages pub)] else details in
      if truthy_list details then journal_str +:+ ", " +:+ join ", " details
      else journal_str
    else "" in
  let doi_str :=
    if truthy_str (doi pub) then ". DOI: " +:+ str_opt_str (doi pub) else "" in
  let citation_str :=
    if is_not_None (citations pub)
    then ". Citations: " +:+ str_opt_int (citations pub) else "" in
  author_str +:+ year_str +:+ title_str +:+ journal_str +:+ doi_str
    +:+ citation_str.

(** *** [save_to_json] *)

(** [save_to_json(publications, filename)]: the list handed to
    [json.dump], one attribute dict per record. *)
Definition save_to_json (publications : list Publication)
    : list (list (string * value)) :=
  map vars publications.

(** *** [save_to_bibtex] *)

(** The characters [str.split()] splits at (ASCII). *)
Definition is_space (c : ascii) : bool :=
  let n := N_of_ascii c in
  (((9 <=? n) && (n <=? 13)) || ((28 <=? n) && (n <=? 32)))%N.

(** [s.split()]: the maximal runs of characters that are no white
    space; [cur] is the run being read. *)
Fixpoint split_go (cur : string) (s : string) : list string :=
  match s with
  | EmptyString => if bool_decide (cur = "") then [] else [cur]
  | String c s' =>
      if is_space c then
        if bool_decide (cur = "") then split_go "" s'
        else cur :: split_go "" s'
      else split_go (cur +:+ String c EmptyString) s'
  end.

Definition split (s : string) : list string := split_go "" s.

(** Exceptions of the code below: those of [exn], and [IndexError]. *)
Inductive raised : Set :=
  | Exn (e : exn)
  | IndexError.

Inductive outcome (A : Type) : Type :=
  | Done (a : A)
  | Raised (e : raised).
Arguments Done {A} a.
Arguments Raised {A} e.

(** [l[-1]] *)
Definition last_item (l : list string) : outcome string :=
  match last l with
  | Some x => Done x
  | None => Raised IndexError
  end.

(** [sub in s] on strings. *)
Fixpoint contains (sub s : string) : bool :=
  String.prefix sub s
  || match s with
     | EmptyString => false
     | String _ s' => contains sub s'
     end.

Definition nl : string := String newline EmptyString.

(** [first_author] of the loop body: the last word of the first author,
    lowercased. *)
Definition bibtex_first_author (pub : Publication) : outcome string :=
  if truthy_list (authors pub) && bool_decide (0 < length (authors pub))%nat
  then
    match authors pub with
    | a :: _ =>
        match last_item (split a) with
        | Done w => Done (lower w)
        | Raised e => Raised e
        end
    | [] => Raised IndexError
    end
  else Done "".

(** [entry_type] of the loop body. *)
Definition bibtex_entry_type (pub : Publication) : string :=
  if truthy_str (type pub) then
    let t := lower (str_opt_str (type pub)) in
    if contains "conference" t || contains "proceedings" t then "inproceedings"
    else if contains "book" t then "book"
    else if contains "thesis" t then
      if contains "phd" t then "phdthesis" else "mastersthesis"
    else "article"
  else "article".

(** [citation_key] of the loop body, for the record at position [i]. *)
Definition bibtex_citation_key (first_author : string) (pub : Publication)
    (i : nat) : string :=
  first_author +:+ str_opt_int (year pub) +:+ str_int (Z.of_nat i).

(** [f.write(f"  {name} = {{{v}}},\n")] when [cond] holds. *)
Definition bibtex_field (cond : bool) (name v : string) : list string :=
  if cond then ["  " +:+ name +:+ " = {" +:+ v +:+ "}," +:+ nl] else [].

(** The [f.write] calls of the loop body for the record [pub] at
    position [i], in order. *)
Definition bibtex_entry (i : nat) (pub : Publication) : outcome (list string) :=
  match bibtex_first_author pub with
  | Raised e => Raised e
  | Done first_author =>
      let citation_key := bibtex_citation_key first_author pub i in
      let entry_type := bibtex_entry_type pub in
      Done
        (["@" +:+ entry_type +:+ "{" +:+ citation_key +:+ "," +:+ nl]
         ++ bibtex_field (truthy_list (authors pub)) "author"
              (join " and " (authors pub))
         ++ ["  title = {" +:+ title pub +:+ "}," +:+ nl]
         ++ bibtex_field (truthy_int (year pub)) "year" (str_opt_int (year pub))
         ++ bibtex_field (truthy_str (journal pub))
              (if bool_decide (entry_type = "article") then "journal"
               else "booktitle")
              (str_opt_str (journal pub))
         ++ bibtex_field (truthy_str (volume pub)) "volume"
              (str_opt_str (volume pub))
         ++ bibtex_field (truthy_str (issue pub)) "number"
              (str_opt_str (issue pub))
         ++ bibtex_field (truthy_str (pages pub)) "pages"
              (str_opt_str (pages pub))
         ++ bibtex_field (truthy_str (publisher pub)) "publisher"
              (str_opt_str (publisher pub))
         ++ bibtex_field (truthy_str (doi pub)) "doi" (str_opt_str (doi pub))
         ++ bibtex_field (truthy_str (url pub)) "url" (str_opt_str (url pub))
         ++ ["}" +:+ nl +:+ nl])
  end.

(** [for i, pub in enumerate(publications): ...], from position [i];
    [file] is what has been written so far. *)
Fixpoint bibtex_write (i : nat) (publications : list Publication)
    (file : list string) : list string * outcome unit :=
  match publications with
  | [] => (file, Done tt)
  | pub :: rest =>
      match bibtex_entry i pub with
      | Done chunks => bibtex_write (S i) rest (file ++ chunks)
      | Raised e => (file, Raised e)
      end
  end.

(** [save_to_bibtex(publications, filename)]: what is written to the
    file, as the list of the strings written, and the outcome. *)
Definition save_to_bibtex (publications : list Publication)
    : list string * outcome unit :=
  bibtex_write 0 publications [].

(** *** The abstract of [get_openalex_publications] *)

(** Tuples [(pos, word)] in the order of Python: by position, then by
    word. *)
Definition pos_word_le (a b : Z * string) : bool :=
  (a.1 <? b.1) || ((a.1 =? b.1) && String.leb a.2 b.2).

(** [positions] of the block: for each word of the index, in the order
    of the dict, a tuple for each of its positions. *)
Definition openalex_positions (inv_index : list (string * list Z))
    : list (Z * string) :=
  flat_map (fun '(word, pos_list) => map (fun pos => (pos, word)) pos_list)
           inv_index.

(** The block that rebuilds [abstract] from
    [item["abstract_inverted_index"]]; [None] stands for an item without
    that key or with [null] under it. *)
Definition openalex_abstract (inv_index : option (list (string * list Z)))
    : option string :=
  match inv_index with
  | None => None
  | Some [] => None
  | Some idx =>
      let positions := list_sort pos_word_le id false (openalex_positions idx) in
      Some (join " " (map snd positions))
  end.

(** *** The end of [main]: merge, sort and output *)

Record args : Type := mkArgs {
  args_orcid : string;
  args_output : option string;
  args_file : option string;
  args_sort : option string;
  args_reverse : bool
}.

(** [s.replace(c, "")] for a one-character [c]. *)
Fixpoint remove_char (c : ascii) (s : string) : string :=
  match s with
  | EmptyString => EmptyString
  | String a s' =>
      if bool_decide (a = c) then remove_char c s'
      else String a (remove_char c s')
  end.

(** [output_format] of [main]. *)
Definition output_format (a : args) : string :=
  if truthy_str (args_output a) then str_opt_str (args_output a) else "text".

(** [output_file] of [main]. *)
Definition output_file (a : args) : string :=
  if truthy_str (args_file a) then str_opt_str (args_file a)
  else
    let orcid_clean := remove_char "-"%char (args_orcid a) in
    let output_file := "publications_" +:+ orcid_clean in
    if bool_decide (output_format a = "json") then output_file +:+ ".json"
    else if bool_decide (output_format a = "csv") then output_file +:+ ".csv"
    else if bool_decide (output_format a = "bibtex") then output_file +:+ ".bib"
    else output_file +:+ ".txt".

(** What is written to an output file. *)
Inductive file_content : Type :=
  | JsonFile (dicts : list (list (string * value)))
  | CsvFile (rows : list (list value))
  | TextFile (chunks : list string).

(** What the end of [main] does: [print(s)], and the writing of a file. *)
Inductive action : Type :=
  | Say (s : string)
  | WriteFile (filename : string) (content : file_content).

(** [f"{i}. {format_citation(pub)}"] for the records from number [i]. *)
Fixpoint numbered_citations (i : nat) (pubs : list Publication) : list string :=
  match pubs with
  | [] => []
  | pub :: rest =>
      (str_int (Z.of_nat i) +:+ ". " +:+ format_citation pub)
        :: numbered_citations (S i) rest
  end.

(** The output step of [main] for the sorted records [merged_pubs]. *)
Definition output_results (a : args) (merged_pubs : list Publication)
    : list action * outcome unit :=
  let output_format := output_format a in
  let output_file := output_file a in
  let saved := Say ("Results saved to " +:+ output_file) in
  if bool_decide (output_format = "json") then
    ([WriteFile output_file (JsonFile (save_to_json merged_pubs)); saved],
     Done tt)
  else if bool_decide (output_format = "csv") then
    match save_to_csv merged_pubs with
    | (rows, Ok _) => ([WriteFile output_file (CsvFile rows); saved], Done tt)
    | (rows, Raise e) => ([WriteFile output_file (CsvFile rows)], Raised (Exn e))
    end
  else if bool_decide (output_format = "bibtex") then
    match save_to_bibtex merged_pubs with
    | (chunks, Done _) =>
        ([WriteFile output_file (TextFile chunks); saved], Done tt)
    | (chunks, Raised e) =>
        ([WriteFile output_file (TextFile chunks)], Raised e)
    end
  else if bool_decide (output_file = "stdout") then
    (flat_map (fun line => [Say line; Say ""])
              (numbered_citations 1 merged_pubs),
     Done tt)
  else
    ([WriteFile output_file
        (TextFile (map (fun line => line +:+ nl +:+ nl)
                       (numbered_citations 1 merged_pubs)));
      saved],
     Done tt).

(** [main] from "Merge and deduplicate" on, for the list
    [all_publications] the services gave: the actions and the exit
    status, or the exception that ends the run. *)
Definition main_finish (a : args) (all_publications : list Publication)
    : list action * outcome Z :=
  match reconcile all_publications with
  | Raise e => ([Say "Merging and deduplicating results..."], Raised (Exn e))
  | Ok merged_pubs =>
      let count :=
        Say ("Final count: " +:+ str_int (Z.of_nat (length merged_pubs))
             +:+ " unique publications") in
      let merged_pubs :=
        sort_publications (args_sort a) (args_reverse a) merged_pubs in
      let '(acts, res) := output_results a merged_pubs in
      ([Say "Merging and deduplicating results..."; count] ++ acts,
       match res with
       | Done _ => Done 0
       | Raised e => Raised e
       end)
  end.


(** [s] has no character but white space. *)
Definition blank (s : string) : bool :=
  forallb is_space (list_ascii_of_string s).

(** The first author of [pub], if any, has a word. *)
Definition first_author_ok (pub : Publication) : bool :=
  match authors pub with
  | a :: _ => negb (blank a)
  | [] => true
  end.

(** A BibTeX entry as written: an opening line with [@], lines of
    fields with the title among them, and the closing line. *)
Definition is_bibtex_entry (pub : Publication) (e : list string) : Prop :=
  exists hd body,
    e = hd :: body ++ ["}" +:+ nl +:+ nl] /\
    String.prefix "@" hd = true /\
    ("  title = {" +:+ title pub +:+ "}," +:+ nl) ∈ body.

(** The words [ws] with their positions, from position [i] on. *)
Fixpoint with_positions (i : nat) (ws : list string) : list (Z * string) :=
  match ws with
  | [] => []
  | w :: ws' => (Z.of_nat i, w) :: with_positions (S i) ws'
  end.

(** The values of the attribute [get], read in [h], of the references of
    [refs] whose object has the key [k], in order. *)
Definition later_values {A} (get : Publication -> A) (h : heap) (k : string)
    (refs : list addr) : list A :=
  omap (fun p =>
          match h !! p with
          | Some o => if bool_decide (key_of o = k) then Some (get o) else None
          | None => None
          end) refs.

(** [r] is the first true value of [vals], or the first value when none
    is true. *)
Definition first_true_else_first {A} (truthy : A -> bool) (vals : list A)
    (r : A) : Prop :=
  exists v vs, vals = v :: vs /\ r = default v (find truthy (v :: vs)).

(** The records of [xs] with the key of [r], in the order of [xs]. *)
Definition same_key_as (r : Publication) (xs : list Publication)
    : list Publication :=
  filter (fun x => key_of x = key_of r) xs.



(** ** [parse_reference] of [dtcc-check-bib.py] *)

(** The regular expressions of [parse_reference]: one character of a
    set, a sequence, a greedy optional part, and a greedy repetition,
    once or more, of one character of a set. *)
Inductive regex : Type :=
  | RSet (r : re_set)
  | RSeq (a b : regex)
  | ROpt (a : regex)
  | RPlus (r : re_set).

(** The ways [r+] matches at the start of [s], the longest first, each
    as the text matched and the rest. *)
Fixpoint plus_matches (r : re_set) (s : string) : list (string * string) :=
  match s with
  | EmptyString => []
  | String a s' =>
      if re_set_matches r a then
        map (fun '(m, rest) => (String a m, rest)) (plus_matches r s')
        ++ [(String a EmptyString, s')]
      else []
  end.

(** The ways [r] matches at the start of [s], in the order in which a
    backtracking matcher tries them. *)
Fixpoint matches (r : regex) (s : string) : list (string * string) :=
  match r with
  | RSet c =>
      match s with
      | EmptyString => []
      | String a s' =>
          if re_set_matches c a then [(String a EmptyString, s')] else []
      end
  | RSeq a b =>
      flat_map (fun '(m1, s1) =>
                  map (fun '(m2, s2) => (m1 +:+ m2, s2)) (matches b s1))
               (matches a s)
  | ROpt a => matches a s ++ [(EmptyString, s)]
  | RPlus c => plus_matches c s
  end.

(** The group of the first match of [pre (grp) post] at the start of [s]. *)
Definition match_group (pre grp post : regex) (s : string) : option string :=
  head (flat_map (fun '(_, s1) =>
                    flat_map (fun '(g, s2) => map (fun _ => g) (matches post s2))
                             (matches grp s1))
                 (matches pre s)).

(** [re.search(pre (grp) post, s).group(1)], [None] without a match. *)
Fixpoint search_group (pre grp post : regex) (s : string) : option string :=
  match match_group pre grp post s with
  | Some g => Some g
  | None =>
      match s with
      | EmptyString => None
      | String _ s' => search_group pre grp post s'
      end
  end.

(** [re.sub(r, "", s)] for an [r] that matches no empty text; [skip] is
    the number of characters still to drop for the match under way. *)
Fixpoint sub_empty (r : regex) (skip : nat) (s : string) : string :=
  match s with
  | EmptyString => EmptyString
  | String a s' =>
      match skip with
      | S k => sub_empty r k s'
      | O =>
          match head (matches r s) with
          | Some (_, rest) =>
              sub_empty r (String.length s' - String.length rest) s'
          | None => String a (sub_empty r 0 s')
          end
      end
  end.

Definition re_chr (c : ascii) : regex := RSet (ReSet false [c]).

(** [\((\d{4})\)], as what stands before, in and after the group. *)
Definition year_pattern : regex * regex * regex :=
  (re_chr "("%char,
   RSeq (RSet re_d) (RSeq (RSet re_d) (RSeq (RSet re_d) (RSet re_d))),
   re_chr ")"%char).

(** [, (\d+(?:-\d+)?)\.] *)
Definition pages_pattern : regex * regex * regex :=
  (RSeq (re_chr ","%char) (re_chr " "%char),
   RSeq (RPlus re_d) (ROpt (RSeq (re_chr "-"%char) (RPlus re_d))),
   re_chr "."%char).

(** [\(\d+\)] *)
Definition parenthesised_number : regex :=
  RSeq (re_chr "("%char) (RSeq (RPlus re_d) (re_chr ")"%char)).

(** [s.split(c)] for a one-character separator. *)
Fixpoint split_on_go (c : ascii) (cur : string) (s : string) : list string :=
  match s with
  | EmptyString => [cur]
  | String a s' =>
      if bool_decide (a = c) then cur :: split_on_go c EmptyString s'
      else split_on_go c (cur +:+ String a EmptyString) s'
  end.

Definition split_on (c : ascii) (s : string) : list string :=
  split_on_go c EmptyString s.

Fixpoint lstrip (s : string) : string :=
  match s with
  | EmptyString => EmptyString
  | String a s' => if is_space a then lstrip s' else s
  end.

Fixpoint rstrip (s : string) : string :=
  match s with
  | EmptyString => EmptyString
  | String a s' =>
      match rstrip s' with
      | EmptyString => if is_space a then EmptyString else String a EmptyString
      | t => String a t
      end
  end.

(** [s.strip()] *)
Definition strip (s : string) : string := rstrip (lstrip s).

(** The dict [parsed_ref]. *)
Record parsed_ref : Type := mkParsedRef {
  original_text : string;
  ref_year : option string;
  ref_title : string;
  ref_journal : string;
  ref_pages : option string
}.

(** [parse_reference(ref_text)] *)
Definition parse_reference (ref_text : string) : parsed_ref :=
  let year :=
    let '(pre, grp, post) := year_pattern in
    search_group pre grp post ref_text in
  let pages :=
    let '(pre, grp, post) := pages_pattern in
    search_group pre grp post ref_text in
  let parts := map strip (split_on "."%char ref_text) in
  let title :=
    if bool_decide (1 < length parts)%nat then default ref_text (parts !! 1%nat)
    else ref_text in
  let journal_info :=
    if bool_decide (1 < length parts)%nat then default "" (last parts)
    else "" in
  let journal_parts := split_on ","%char journal_info in
  let journal :=
    if truthy_list journal_parts then strip (default "" (head journal_parts))
    else journal_info in
  let journal := strip (sub_empty parenthesised_number 0 journal) in
  mkParsedRef ref_text year title journal pages.


(** [query_str] of [check_crossref] and of [check_scopus]. *)
Definition crossref_query (ref_dict : parsed_ref) : string :=
  ref_title ref_dict +:+ " " +:+ ref_journal ref_dict +:+ " "
    +:+ str_opt_str (ref_year ref_dict).

Definition scopus_query (ref_dict : parsed_ref) : string :=
  "TITLE(" +:+ ref_title ref_dict +:+ ") AND PUBYEAR IS "
    +:+ str_opt_str (ref_year ref_dict).

(** * Properties *)

(** ** Strings and keys *)

Lemma string_has_app c s t :
  string_has c (s +:+ t) <-> string_has c s \/ string_has c t.
Proof.
  unfold string_has. induction s as [|a s IH]; simpl.
  - split; [auto | intros [H | H]; [inversion H | done]].
  - rewrite !elem_of_cons, IH. tauto.
Qed.

Lemma append_sep_inj c s1 s2 y1 y2 :
  ~ string_has c y1 -> ~ string_has c y2 ->
  s1 +:+ String c y1 = s2 +:+ String c y2 -> s1 = s2 /\ y1 = y2.
Proof.
  intros H1 H2. revert s2.
  induction s1 as [|a s1 IH]; intros [|b s2]; simpl; intros E.
  - by injection E.
  - injection E as -> ->. exfalso. apply H1.
    apply string_has_app. right. unfold string_has. simpl. apply elem_of_cons; auto.
  - injection E as -> <-. exfalso. apply H2.
    apply string_has_app. right. unfold string_has. simpl. apply elem_of_cons; auto.
  - injection E as -> E. destruct (IH _ E) as [-> ->]. done.
Qed.

Lemma string_of_uint_digits d c :
  string_has c (NilEmpty.string_of_uint d) -> is_digit c = true.
Proof.
  unfold string_has.
  induction d; simpl; intros H; try (by inversion H);
    apply elem_of_cons in H as [-> | H]; auto.
Qed.

Lemma str_int_chars n c : string_has c (str_int n) -> sign_or_digit c.
Proof.
  unfold str_int, NilZero.string_of_int, NilZero.string_of_uint, sign_or_digit.
  assert (Hz : forall c, string_has c "0" -> is_digit c = true).
  { unfold string_has. simpl. intros c' H.
    apply elem_of_cons in H as [-> | H]; [done | inversion H]. }
  destruct (Z.to_int n) as [d | d]; intros H.
  - right. destruct d; eauto using string_of_uint_digits.
  - unfold string_has in H. simpl in H.
    apply elem_of_cons in H as [-> | H]; [by left | right].
    destruct d; eauto using string_of_uint_digits.
Qed.

Lemma str_int_inj n m : str_int n = str_int m -> n = m.
Proof.
  unfold str_int. intros E.
  assert (Hi : forall z, NilZero.int_of_string (NilZero.string_of_int (Z.to_int z))
                         = Some (Z.to_int z)).
  { intros z. apply NilZero.isi; destruct z; simpl; try discriminate;
      intros [= H]; by apply DecimalPos.Unsigned.to_uint_nonnil in H. }
  rewrite <- (DecimalZ.of_to n), <- (DecimalZ.of_to m). f_equal.
  apply (inj Some). rewrite <- !Hi. by rewrite E.
Qed.

Lemma str_opt_int_no_underscore v : ~ string_has "_"%char (str_opt_int v).
Proof.
  destruct v as [n|]; simpl.
  - intros H. apply str_int_chars in H as [H | H]; discriminate.
  - unfold string_has. simpl. intros H.
    repeat (apply elem_of_cons in H as [H | H]; [discriminate |]). inversion H.
Qed.

Lemma str_opt_int_inj v w : str_opt_int v = str_opt_int w -> v = w.
Proof.
  assert (HN : forall n, str_int n <> "None").
  { intros n E. assert (H : string_has "N"%char (str_int n)).
    { rewrite E. unfold string_has. simpl. apply elem_of_cons. by left. }
    apply str_int_chars in H as [H | H]; discriminate. }
  destruct v as [n|], w as [m|]; simpl; intros E.
  - f_equal. by apply str_int_inj.
  - by apply HN in E.
  - symmetry in E. by apply HN in E.
  - done.
Qed.

(** The fallback key determines the lowercased title and the year. *)
Lemma fallback_key_inj t1 t2 y1 y2 :
  t1 +:+ "_" +:+ str_opt_int y1 = t2 +:+ "_" +:+ str_opt_int y2 <->
  t1 = t2 /\ y1 = y2.
Proof.
  split; [| by intros [-> ->]].
  intros E. apply append_sep_inj in E as [-> E];
    auto using str_opt_int_no_underscore.
  split; [done | by apply str_opt_int_inj].
Qed.

(** The guard [if pub.doi] keeps [.lower()] away from [None]. *)
Lemma identity_key_total pub : identity_key pub = Ok (key_of pub).
Proof.
  unfold key_of, identity_key.
  destruct (doi pub) as [[|c s]|]; reflexivity.
Qed.

Lemma key_of_doi pub d :
  doi pub = Some d -> truthy_str (doi pub) = true -> key_of pub = lower d.
Proof. unfold key_of, identity_key. intros -> ->. reflexivity. Qed.

Lemma key_of_fallback pub :
  truthy_str (doi pub) = false ->
  key_of pub = lower (title pub) +:+ "_" +:+ str_opt_int (year pub).
Proof. unfold key_of, identity_key. intros ->. reflexivity. Qed.

Lemma key_of_ids a b :
  title a = title b -> year a = year b -> doi a = doi b -> key_of a = key_of b.
Proof. unfold key_of, identity_key. by intros -> -> ->. Qed.

(** ** One merge *)

Lemma exec_bind_ok {A B} (m : Exec A) (f : A -> Exec B) h a h' :
  m h = Ok (a, h') -> (m ≫= f) h = f a h'.
Proof. unfold mbind, Exec_bind. by intros ->. Qed.

Lemma fill_if_missing_run {A} (truthy : A -> bool) get set e p x y y' (h : heap) :
  (e < length h)%nat -> <[e:=x]> h !! p = Some y' -> get y' = get y ->
  fill_if_missing truthy get set e p (<[e:=x]> h)
  = Ok (tt, <[e := fill_field truthy get set x y]> h).
Proof.
  intros He Hp Hy.
  unfold fill_if_missing, fill_field, mbind, Exec_bind, getattr, setattr.
  rewrite list_lookup_insert_eq by done.
  destruct (truthy (get x)); [done |].
  rewrite Hp, Hy. destruct (truthy (get y)); [| done].
  rewrite list_lookup_insert_eq by done.
  by rewrite list_insert_insert_eq.
Qed.

(** A field that a step does not assign is the same before and after. *)
Lemma fill_field_other {A B} (truthy : A -> bool) get set (proj : Publication -> B) x y :
  (forall v o, proj (set v o) = proj o) ->
  proj (fill_field truthy get set x y) = proj x.
Proof.
  intros H. unfold fill_field.
  destruct (truthy (get x)); [done |]. by destruct (truthy (get y)).
Qed.

Lemma fill_field_same {A} (truthy : A -> bool) get set x y :
  (forall v o, get (set v o) = v) ->
  get (fill_field truthy get set x y) = filled truthy (get x) (get y).
Proof.
  intros H. unfold fill_field, filled.
  destruct (truthy (get x)); [done |]. by destruct (truthy (get y)).
Qed.

Ltac field_of_merge :=
  unfold merge_record; cbv zeta;
  repeat (rewrite fill_field_other by (intros; reflexivity));
  try (rewrite fill_field_same by (intros; reflexivity));
  repeat (rewrite fill_field_other by (intros; reflexivity));
  try reflexivity.

Lemma merge_record_title x y : title (merge_record x y) = title x.
Proof. field_of_merge. Qed.
Lemma merge_record_year x y : year (merge_record x y) = year x.
Proof. field_of_merge. Qed.
Lemma merge_record_doi x y : doi (merge_record x y) = doi x.
Proof. field_of_merge. Qed.
Lemma merge_record_source x y :
  source (merge_record x y) = source x +:+ ", " +:+ source y.
Proof. field_of_merge. Qed.
Lemma merge_record_authors x y :
  authors (merge_record x y) = filled truthy_list (authors x) (authors y).
Proof. field_of_merge. Qed.
Lemma merge_record_journal x y :
  journal (merge_record x y) = filled truthy_str (journal x) (journal y).
Proof. field_of_merge. Qed.
Lemma merge_record_abstract x y :
  abstract (merge_record x y) = filled truthy_str (abstract x) (abstract y).
Proof. field_of_merge. Qed.
Lemma merge_record_url x y :
  url (merge_record x y) = filled truthy_str (url x) (url y).
Proof. field_of_merge. Qed.
Lemma merge_record_volume x y :
  volume (merge_record x y) = filled truthy_str (volume x) (volume y).
Proof. field_of_merge. Qed.
Lemma merge_record_issue x y :
  issue (merge_record x y) = filled truthy_str (issue x) (issue y).
Proof. field_of_merge. Qed.
Lemma merge_record_pages x y :
  pages (merge_record x y) = filled truthy_str (pages x) (pages y).
Proof. field_of_merge. Qed.
Lemma merge_record_publisher x y :
  publisher (merge_record x y) = filled truthy_str (publisher x) (publisher y).
Proof. field_of_merge. Qed.
Lemma merge_record_citations x y :
  citations (merge_record x y) = filled truthy_int (citations x) (citations y).
Proof. field_of_merge. Qed.
Lemma merge_record_type x y :
  type (merge_record x y) = filled truthy_str (type x) (type y).
Proof. field_of_merge. Qed.

Lemma merge_record_key x y : key_of (merge_record x y) = key_of x.
Proof.
  apply key_of_ids;
    [apply merge_record_title | apply merge_record_year | apply merge_record_doi].
Qed.

Ltac same_field :=
  repeat (rewrite fill_field_other by (intros; reflexivity)); reflexivity.

(** The statements of [merge_into], run on the store, amount to one
    update of the object [existing]; this holds as well when [pub] and
    [existing] are the same object. *)
Lemma merge_into_run (h : heap) e p x y :
  h !! e = Some x -> h !! p = Some y ->
  merge_into e p h = Ok (tt, <[e := merge_record x y]> h).
Proof.
  intros He Hp. pose proof (lookup_lt_Some _ _ _ He) as Hlt.
  unfold merge_into, merge_record. cbv zeta.
  rewrite (exec_bind_ok _ _ h (source x) h) by (unfold getattr; by rewrite He).
  rewrite (exec_bind_ok _ _ h (source y) h) by (unfold getattr; by rewrite Hp).
  erewrite exec_bind_ok by (unfold setattr; by rewrite He).
  destruct (decide (e = p)) as [<- | Hne].
  - assert (y = x) as -> by congruence.
    repeat (erewrite exec_bind_ok by
      (eapply fill_if_missing_run with (y := x);
         [done | by apply list_lookup_insert_eq | same_field])).
    eapply fill_if_missing_run with (y := x);
      [done | by apply list_lookup_insert_eq | same_field].
  - repeat (erewrite exec_bind_ok by
      (eapply fill_if_missing_run with (y := y);
         [done | by rewrite list_lookup_insert_ne | done])).
    eapply fill_if_missing_run with (y := y);
      [done | by rewrite list_lookup_insert_ne | done].
Qed.

(** ** The loop of [merge_publications] *)

Lemma dict_get_Some key (merged : dict) a :
  dict_get key merged = Some a -> (key, a) ∈ merged.
Proof.
  induction merged as [|[k b] m IH]; simpl; [done |].
  case_bool_decide as Hk.
  - intros [= ->]. subst. apply elem_of_cons. by left.
  - intros H. apply elem_of_cons. right. auto.
Qed.

Lemma dict_get_None key (merged : dict) :
  dict_get key merged = None <-> key ∉ merged.*1.
Proof.
  induction merged as [|[k b] m IH]; simpl.
  - split; [intros _ H; inversion H | done].
  - rewrite not_elem_of_cons. case_bool_decide as Hk.
    + split; [done | intros [H _]; by subst].
    + rewrite IH. split; [by intros; split; [congruence |] | by intros [_ ?]].
Qed.

Lemma merge_loop_new (h : heap) p o rest (merged : dict) :
  h !! p = Some o -> dict_get (key_of o) merged = None ->
  merge_loop (p :: rest) merged h
  = merge_loop rest (merged ++ [(key_of o, p)]) h.
Proof.
  intros Hp Hk. simpl.
  rewrite (exec_bind_ok _ _ h o h) by (unfold getattr; by rewrite Hp).
  rewrite (exec_bind_ok _ _ h (key_of o) h)
    by (unfold lift; by rewrite identity_key_total).
  by rewrite Hk.
Qed.

Lemma merge_loop_dup (h : heap) p o e x rest (merged : dict) :
  h !! p = Some o -> dict_get (key_of o) merged = Some e -> h !! e = Some x ->
  merge_loop (p :: rest) merged h
  = merge_loop rest merged (<[e := merge_record x o]> h).
Proof.
  intros Hp Hk He. simpl.
  rewrite (exec_bind_ok _ _ h o h) by (unfold getattr; by rewrite Hp).
  rewrite (exec_bind_ok _ _ h (key_of o) h)
    by (unfold lift; by rewrite identity_key_total).
  rewrite Hk. by rewrite (exec_bind_ok _ _ _ _ _ (merge_into_run h e p x o He Hp)).
Qed.

Lemma length_append s t :
  String.length (s +:+ t) = (String.length s + String.length t)%nat.
Proof. induction s as [|c s IH]; simpl; [done | by rewrite IH]. Qed.

Lemma merge_record_source_longer x y :
  (String.length (source x) < String.length (source (merge_record x y)))%nat.
Proof. rewrite merge_record_source, !length_append. simpl. lia. Qed.

Lemma same_ids_refl h : same_ids h h.
Proof. split; [done |]. intros a o H. by exists o. Qed.

Lemma same_ids_trans h1 h2 h3 : same_ids h1 h2 -> same_ids h2 h3 -> same_ids h1 h3.
Proof.
  intros [L1 H1] [L2 H2]. split; [congruence |].
  intros a o Ho. destruct (H1 _ _ Ho) as (o' & Ho' & ? & ? & ? & ?).
  destruct (H2 _ _ Ho') as (o'' & Ho'' & ? & ? & ? & ?).
  exists o''. repeat split; try congruence. lia.
Qed.

Lemma same_ids_merge (h : heap) e x y :
  h !! e = Some x -> same_ids h (<[e := merge_record x y]> h).
Proof.
  intros He. split; [apply length_insert |].
  intros a o Ho. destruct (decide (e = a)) as [<- | Hne].
  - exists (merge_record x y). rewrite list_lookup_insert_eq
      by eauto using lookup_lt_Some.
    assert (o = x) as -> by congruence.
    pose proof (merge_record_source_longer x y).
    repeat split;
      auto using merge_record_title, merge_record_year, merge_record_doi.
    lia.
  - exists o. by rewrite list_lookup_insert_ne.
Qed.

Lemma same_ids_key_at h h' a : same_ids h h' -> key_at h' a = key_at h a.
Proof.
  intros [L H]. unfold key_at. destruct (h !! a) as [o|] eqn:Ho.
  - destruct (H _ _ Ho) as (o' & -> & ? & ? & ? & _). simpl. f_equal.
    by apply key_of_ids.
  - apply lookup_ge_None in Ho. rewrite <- L in Ho.
    apply lookup_ge_None in Ho. by rewrite Ho.
Qed.

Lemma first_seen_ext h h' seen refs :
  (forall a, key_at h' a = key_at h a) ->
  first_seen h' seen refs = first_seen h seen refs.
Proof.
  intros H. revert seen. induction refs as [|p rest IH]; intros seen; simpl; [done |].
  specialize (H p). unfold key_at in H.
  destruct (h' !! p) as [o'|], (h !! p) as [o|]; simpl in H; try done.
  injection H as ->. by rewrite !IH.
Qed.

Lemma dict_ok_merge (h : heap) (merged : dict) e x y :
  h !! e = Some x -> dict_ok h merged ->
  dict_ok (<[e := merge_record x y]> h) merged.
Proof.
  intros He [ND H]. split; [done |]. intros k a Hka.
  destruct (H _ _ Hka) as (o & Ho & Hk).
  destruct (decide (e = a)) as [<- | Hne].
  - exists (merge_record x y). rewrite list_lookup_insert_eq
      by eauto using lookup_lt_Some.
    split; [done |]. rewrite merge_record_key. congruence.
  - exists o. by rewrite list_lookup_insert_ne.
Qed.

Lemma dict_ok_new (h : heap) (merged : dict) p o :
  h !! p = Some o -> dict_get (key_of o) merged = None -> dict_ok h merged ->
  dict_ok h (merged ++ [(key_of o, p)]).
Proof.
  intros Hp Hk [ND H]. apply dict_get_None in Hk. split.
  - rewrite fmap_app. apply NoDup_app. split; [done |]. split.
    + intros k Hin Hin'. simpl in Hin'. apply list_elem_of_singleton in Hin'. by subst.
    + apply NoDup_singleton.
  - intros k a Hka. apply elem_of_app in Hka as [Hka | Hka]; [by apply H |].
    apply list_elem_of_singleton in Hka. injection Hka as -> ->. by exists o.
Qed.

(** The run of the loop: it never raises, it adds to the dict the
    first-seen reference of each new key, it keeps title, year and DOI of
    every object, and it leaves alone every object that is not stored in
    the dict. *)
Lemma merge_loop_spec refs : forall (merged : dict) (h : heap),
  dict_ok h merged -> Forall (fun a => a < length h)%nat refs ->
  exists h',
    merge_loop refs merged h
      = Ok (merged ++ first_seen h (merged.*1) refs, h') /\
    same_ids h h' /\
    (forall a, a ∉ (merged ++ first_seen h (merged.*1) refs).*2 ->
               h' !! a = h !! a).
Proof.
  induction refs as [|p rest IH]; intros merged h Hok Hv.
  - exists h. simpl. rewrite app_nil_r. auto using same_ids_refl.
  - apply Forall_cons in Hv as [Hp Hv].
    apply lookup_lt_is_Some_2 in Hp as [o Hp].
    destruct (dict_get (key_of o) merged) as [e|] eqn:Hk.
    + pose proof (dict_get_Some _ _ _ Hk) as Hin.
      destruct (proj2 Hok _ _ Hin) as (x & He & Hkx).
      rewrite (merge_loop_dup h p o e x) by done.
      pose proof (same_ids_merge h e x o He) as Hs1.
      destruct (IH merged (<[e := merge_record x o]> h)) as (h' & Hrun & Hs & Hf).
      { by apply dict_ok_merge. }
      { by rewrite length_insert. }
      assert (Hfs : first_seen h (merged.*1) (p :: rest)
                    = first_seen h (merged.*1) rest).
      { simpl. rewrite Hp. rewrite bool_decide_eq_true_2; [done |].
        apply list_elem_of_fmap. by exists (key_of o, e). }
      rewrite (first_seen_ext h) in Hrun, Hf
        by (intros; by apply same_ids_key_at).
      exists h'. rewrite Hfs. split; [done |]. split.
      * by apply same_ids_trans with (<[e := merge_record x o]> h).
      * intros a Ha. rewrite Hf by done. apply list_lookup_insert_ne.
        intros <-. apply Ha. rewrite fmap_app. apply elem_of_app. left.
        apply list_elem_of_fmap. by exists (key_of o, e).
    + rewrite (merge_loop_new h p o) by done.
      destruct (IH (merged ++ [(key_of o, p)]) h) as (h' & Hrun & Hs & Hf).
      { by apply dict_ok_new. }
      { done. }
      assert (Hfs : first_seen h (merged.*1) (p :: rest)
                    = (key_of o, p) :: first_seen h (merged.*1 ++ [key_of o]) rest).
      { simpl. rewrite Hp. rewrite bool_decide_eq_false_2; [done |].
        by apply dict_get_None. }
      rewrite (fmap_app fst), <- app_assoc in Hrun.
      setoid_rewrite (fmap_app fst merged) in Hf. rewrite <- app_assoc in Hf.
      exists h'. rewrite Hfs. auto.
Qed.

(** ** First-seen keys *)

Lemma keys_at_cons (h : heap) p o rest :
  h !! p = Some o -> keys_at h (p :: rest) = key_of o :: keys_at h rest.
Proof. intros Hp. unfold keys_at. simpl. unfold key_at at 1. by rewrite Hp. Qed.

Lemma first_seen_keys h refs : forall seen,
  Forall (fun a => a < length h)%nat refs ->
  (first_seen h seen refs).*1 = first_occurrences seen (keys_at h refs).
Proof.
  induction refs as [|p rest IH]; intros seen Hv; [done |].
  apply Forall_cons in Hv as [Hp Hv].
  apply lookup_lt_is_Some_2 in Hp as [o Hp].
  rewrite (keys_at_cons h p o) by done. simpl. rewrite Hp.
  case_bool_decide; simpl; by rewrite IH.
Qed.

Lemma first_seen_entry h refs : forall seen k a,
  (k, a) ∈ first_seen h seen refs -> a ∈ refs /\ key_at h a = Some k.
Proof.
  induction refs as [|p rest IH]; intros seen k a; simpl.
  - intros H. inversion H.
  - destruct (h !! p) as [o|] eqn:Hp; [| intros H; inversion H].
    rewrite elem_of_cons. case_bool_decide.
    + intros H'. apply IH in H' as [? ?]. auto.
    + rewrite elem_of_cons. intros [[= -> ->] | H'].
      * split; [by left |]. unfold key_at. by rewrite Hp.
      * apply IH in H' as [? ?]. auto.
Qed.

Lemma elem_of_first_occurrences ks : forall seen k,
  k ∈ first_occurrences seen ks <-> (k ∉ seen) /\ (k ∈ ks).
Proof.
  induction ks as [|k0 ks IH]; intros seen k; simpl.
  - split; [intros H; inversion H | intros [_ H]; inversion H].
  - case_bool_decide as Hk0.
    + rewrite IH, elem_of_cons. split; [tauto |].
      intros [Hn [-> | H]]; [done | auto].
    + rewrite !elem_of_cons, IH, not_elem_of_app, list_elem_of_singleton.
      split.
      * intros [-> | [[? ?] ?]]; auto.
      * intros [Hn [-> | H]]; [auto |].
        destruct (decide (k = k0)); auto.
Qed.

Lemma NoDup_first_occurrences ks : forall seen, NoDup (first_occurrences seen ks).
Proof.
  induction ks as [|k0 ks IH]; intros seen; simpl; [constructor |].
  case_bool_decide; [done |]. constructor; [| done].
  rewrite elem_of_first_occurrences, not_elem_of_app, list_elem_of_singleton.
  tauto.
Qed.

Lemma first_occurrences_NoDup ks : forall seen,
  NoDup ks -> (forall k, k ∈ ks -> k ∉ seen) -> first_occurrences seen ks = ks.
Proof.
  induction ks as [|k0 ks IH]; intros seen ND Hd; simpl; [done |].
  apply NoDup_cons in ND as [Hn ND].
  rewrite bool_decide_eq_false_2 by (apply Hd; by left).
  f_equal. apply IH; [done |]. intros k Hk.
  rewrite not_elem_of_app, list_elem_of_singleton. split.
  - apply Hd. by right.
  - by intros ->.
Qed.

Lemma first_occurrences_Permutation ks1 ks2 :
  ks1 ≡ₚ ks2 -> first_occurrences [] ks1 ≡ₚ first_occurrences [] ks2.
Proof.
  intros HP. apply NoDup_Permutation; auto using NoDup_first_occurrences.
  intros k. rewrite !elem_of_first_occurrences. by rewrite HP.
Qed.

Lemma keys_at_seq (xs : list Publication) :
  keys_at xs (seq 0 (length xs)) = map key_of xs.
Proof.
  assert (H : forall pre, keys_at (pre ++ xs) (seq (length pre) (length xs))
                          = map key_of xs).
  { induction xs as [|x xs IH]; intros pre; [done |].
    cbn [length seq map]. rewrite (keys_at_cons _ _ x).
    - f_equal. specialize (IH (pre ++ [x])).
      rewrite length_app, Nat.add_1_r, <- app_assoc in IH. apply IH.
    - by rewrite list_lookup_middle. }
  apply (H []).
Qed.

Lemma seq_valid n : Forall (fun a => a < n)%nat (seq 0 n).
Proof. apply Forall_forall. intros a Ha. apply elem_of_seq in Ha. lia. Qed.

Lemma dict_ok_empty h : dict_ok h [].
Proof. split; [constructor |]. intros k a H. inversion H. Qed.

(** ** Reading the result *)

Lemma deref_all_ok (h : heap) l :
  Forall (fun a => a < length h)%nat l ->
  exists os, deref_all h l = Ok os /\ Forall2 (fun a o => h !! a = Some o) l os.
Proof.
  induction l as [|a l IH]; intros Hv; simpl.
  - exists []. auto.
  - apply Forall_cons in Hv as [Ha Hv].
    apply lookup_lt_is_Some_2 in Ha as [o Ha]. rewrite Ha.
    destruct (IH Hv) as (os & -> & HF). exists (o :: os). auto.
Qed.

(** The engine on records: the run, the store it leaves and the list it
    returns, in terms of [entries]. *)
Lemma reconcile_spec xs :
  exists h' out,
    merge_publications (seq 0 (length xs)) xs = Ok ((entries xs).*2, h') /\
    inputs_after xs = Ok h' /\
    reconcile xs = Ok out /\
    same_ids xs h' /\
    (forall a, a ∉ (entries xs).*2 -> h' !! a = xs !! a) /\
    Forall2 (fun ka r => h' !! ka.2 = Some r /\ key_of r = ka.1) (entries xs) out.
Proof.
  destruct (merge_loop_spec (seq 0 (length xs)) [] xs) as (h' & Hrun & Hs & Hf);
    [apply dict_ok_empty | apply seq_valid |].
  simpl in Hrun, Hf. fold (entries xs) in Hrun, Hf.
  assert (Hm : merge_publications (seq 0 (length xs)) xs
               = Ok ((entries xs).*2, h')).
  { unfold merge_publications. by rewrite (exec_bind_ok _ _ _ _ _ Hrun). }
  destruct (deref_all_ok h' ((entries xs).*2)) as (out & Hd & HF).
  { apply Forall_forall. intros a Ha. apply list_elem_of_fmap in Ha as [[k a'] [-> Ha]].
    apply first_seen_entry in Ha as [Ha _]. apply elem_of_seq in Ha.
    destruct Hs as [-> _]. simpl. lia. }
  exists h', out. unfold inputs_after, reconcile. rewrite Hm.
  repeat split; try done; try apply Hs.
  assert (Hall : Forall (fun ka => key_at h' ka.2 = Some ka.1) (entries xs)).
  { apply Forall_forall. intros [k a] Hka. apply first_seen_entry in Hka as [_ Hk].
    simpl. by rewrite (same_ids_key_at xs h'). }
  revert Hall HF. generalize (entries xs). clear.
  intros l Hall. revert out. induction Hall as [|[k a] l Hk Hall IH]; intros out HF.
  - inversion HF. constructor.
  - inversion HF as [|? r ? out' Hr HF']; subst. constructor; [| by apply IH].
    simpl in *. split; [done |]. unfold key_at in Hk. rewrite Hr in Hk.
    by injection Hk.
Qed.

Lemma map_identity_key l : map identity_key l = map Ok (map key_of l).
Proof.
  rewrite map_map. apply map_ext. intros. apply identity_key_total.
Qed.

#[local] Instance Ok_inj {A} : Inj (=) (=) (@Ok A).
Proof. intros a b. by intros [= ->]. Qed.

Lemma entries_keys xs : (entries xs).*1 = first_occurrences [] (map key_of xs).
Proof.
  unfold entries. rewrite first_seen_keys by apply seq_valid.
  by rewrite keys_at_seq.
Qed.

Lemma Forall2_entries_keys (h' : heap) (l : list (string * addr)) out :
  Forall2 (fun ka r => h' !! ka.2 = Some r /\ key_of r = ka.1) l out ->
  map key_of out = l.*1.
Proof.
  induction 1 as [|[k a] r l out [_ Hk] _ IH]; [done |].
  simpl in *. by rewrite Hk, IH.
Qed.

Lemma reconcile_keys xs out :
  reconcile xs = Ok out -> map key_of out = first_occurrences [] (map key_of xs).
Proof.
  destruct (reconcile_spec xs) as (h' & out' & _ & _ & Hr & _ & _ & HF).
  rewrite Hr. intros [= <-].
  rewrite (Forall2_entries_keys _ _ _ HF). apply entries_keys.
Qed.

Lemma length_first_occurrences ks : forall seen,
  (length (first_occurrences seen ks) <= length ks)%nat.
Proof.
  induction ks as [|k ks IH]; intros seen; simpl; [done |].
  case_bool_decide; simpl.
  - specialize (IH seen). lia.
  - specialize (IH (seen ++ [k])). lia.
Qed.

Lemma first_seen_not_seen h refs : forall seen k a,
  (k, a) ∈ first_seen h seen refs -> k ∉ seen.
Proof.
  induction refs as [|p rest IH]; intros seen k a; simpl.
  - intros H. inversion H.
  - destruct (h !! p) as [o|]; [| intros H; inversion H].
    case_bool_decide as Hs; [apply IH |].
    rewrite elem_of_cons. intros [[= -> ->] | H]; [done |].
    apply IH in H. rewrite not_elem_of_app in H. tauto.
Qed.

(** When no key repeats, the loop only inserts: the store is untouched
    and every reference is stored, in order. *)
Lemma merge_loop_distinct refs : forall (merged : dict) (h : heap),
  Forall (fun a => a < length h)%nat refs ->
  NoDup (keys_at h refs) ->
  (forall k, k ∈ keys_at h refs -> k ∉ merged.*1) ->
  merge_loop refs merged h = Ok (merged ++ first_seen h (merged.*1) refs, h)
  /\ (first_seen h (merged.*1) refs).*2 = refs.
Proof.
  induction refs as [|p rest IH]; intros merged h Hv ND Hd.
  - simpl. by rewrite app_nil_r.
  - apply Forall_cons in Hv as [Hp Hv].
    apply lookup_lt_is_Some_2 in Hp as [o Hp].
    rewrite (keys_at_cons h p o) in ND, Hd by done.
    apply NoDup_cons in ND as [Hn ND].
    assert (Hk : key_of o ∉ merged.*1) by (apply Hd; by left).
    rewrite (merge_loop_new h p o) by (done || by apply dict_get_None).
    destruct (IH (merged ++ [(key_of o, p)]) h) as [Hrun Hfs]; [done | done | |].
    { intros k Hin. rewrite fmap_app, not_elem_of_app. split.
      - apply Hd. by right.
      - simpl. rewrite list_elem_of_singleton. by intros ->. }
    rewrite (fmap_app fst), <- app_assoc in Hrun.
    rewrite (fmap_app fst) in Hfs.
    change ([(key_of o, p)].*1) with [key_of o] in Hfs, Hrun.
    simpl. rewrite Hp, bool_decide_eq_false_2 by done.
    split; [done |]. rewrite fmap_cons. by rewrite Hfs.
Qed.

Lemma deref_all_seq (xs : list Publication) :
  deref_all xs (seq 0 (length xs)) = Ok xs.
Proof.
  assert (H : forall pre, deref_all (pre ++ xs) (seq (length pre) (length xs))
                          = Ok xs).
  { induction xs as [|x xs IH]; intros pre; [done |].
    cbn [length seq deref_all]. rewrite list_lookup_middle by done.
    specialize (IH (pre ++ [x])).
    rewrite length_app, Nat.add_1_r, <- app_assoc in IH.
    simpl in IH. by rewrite IH. }
  apply (H []).
Qed.

(** Records with pairwise distinct keys pass through the engine as they
    are, and their objects are not touched. *)
Lemma reconcile_distinct xs :
  NoDup (map key_of xs) -> reconcile xs = Ok xs /\ inputs_after xs = Ok xs.
Proof.
  intros ND.
  destruct (merge_loop_distinct (seq 0 (length xs)) [] xs) as [Hrun Hfs].
  - apply seq_valid.
  - by rewrite keys_at_seq.
  - intros k _ H. inversion H.
  - simpl in Hrun, Hfs. unfold reconcile, inputs_after, merge_publications.
    rewrite (exec_bind_ok _ _ _ _ _ Hrun). cbn [mret Exec_ret].
    rewrite Hfs. by rewrite deref_all_seq.
Qed.

(** The engine on two records. *)
Lemma reconcile_pair a b :
  reconcile [a; b]
  = if bool_decide (key_of a = key_of b) then Ok [merge_record a b]
    else Ok [a; b].
Proof.
  unfold reconcile, merge_publications. cbn [length seq].
  unfold mbind at 1, Exec_bind.
  rewrite (merge_loop_new [a; b] 0%nat a) by done.
  cbn [app]. case_bool_decide as Hk.
  - rewrite (merge_loop_dup [a; b] 1%nat b 0%nat a);
      [done | done | | done].
    simpl. by rewrite bool_decide_eq_true_2.
  - rewrite (merge_loop_new [a; b] 1%nat b);
      [done | done |].
    simpl. by rewrite bool_decide_eq_false_2.
Qed.

(** ** The engine: identity *)

Example end_to_end :
  reconcile [pubA; pubB] =
  Ok [mkPublication "Alpha" [] (Some 2019) (Some "10.1/X") (Some "J") None
        None None None None None None None "A, B"].
Proof. reflexivity. Qed.

Lemma identity_key_eq a b : identity_key a = identity_key b <-> key_of a = key_of b.
Proof.
  rewrite !identity_key_total. split; [by intros [= ->] | by intros ->].
Qed.

Lemma truthy_str_Some v : truthy_str v = true -> exists d, v = Some d.
Proof. destruct v as [d|]; [eauto | done]. Qed.

(** When two records have the same key. *)
Lemma identity_key_cases a b :
  identity_key a = identity_key b <->
  (truthy_str (doi a) = true /\ truthy_str (doi b) = true /\
   attr_lower (doi a) = attr_lower (doi b))
  \/ (truthy_str (doi a) = false /\ truthy_str (doi b) = false /\
      lower (title a) = lower (title b) /\ year a = year b)
  \/ (truthy_str (doi a) = true /\ truthy_str (doi b) = false /\
      attr_lower (doi a) = Ok (fallback_key b))
  \/ (truthy_str (doi a) = false /\ truthy_str (doi b) = true /\
      attr_lower (doi b) = Ok (fallback_key a)).
Proof.
  unfold identity_key, fallback_key.
  destruct (truthy_str (doi a)) eqn:Ha, (truthy_str (doi b)) eqn:Hb.
  - split; [auto |]. intros [(_ & _ & H) | [(? & _) | [(_ & ? & _) | (? & _)]]];
      done.
  - split; [auto 10 |]. intros [(_ & ? & _) | [(? & _) | [(_ & _ & H) | (? & _)]]];
      done.
  - split; [auto 10 |]. intros [(? & _) | [(_ & ? & _) | [(? & _) | (_ & _ & H)]]];
      done.
  - split.
    + intros [= H]. apply fallback_key_inj in H. auto 10.
    + intros [(? & _) | [(_ & _ & H1 & H2) | [(? & _) | (_ & ? & _)]]]; try done.
      by rewrite H1, H2.
Qed.

(** C1, as stated, fails: [pubA] and [pubA_no_doi] have equal title and
    year and exactly one of them carries a DOI, so they are the same
    publication by the stated identity, yet the engine keeps them as two
    records. *)
Lemma one_sided_doi_not_merged :
  spec_same_publication pubA pubA_no_doi /\
  Publication_eq pubA pubA_no_doi = Ok true /\
  reconcile [pubA; pubA_no_doi] = Ok [pubA; pubA_no_doi].
Proof.
  split; [| split; reflexivity].
  right. split; [by right |]. split; reflexivity.
Qed.

(** The stated identity is not an equivalence, hence it is the equality
    of no key at all. *)
Lemma spec_same_publication_no_key :
  ~ exists key : Publication -> string,
      forall a b, spec_same_publication a b <-> key a = key b.
Proof.
  intros [key H].
  assert (H1 : key pubA = key pubA_no_doi).
  { apply H. right. split; [by right |]. split; reflexivity. }
  assert (H2 : key pubA_no_doi = key pubA_other_doi).
  { apply H. right. split; [by left |]. split; reflexivity. }
  assert (H3 : spec_same_publication pubA pubA_other_doi)
    by (apply H; congruence).
  destruct H3 as [(_ & _ & H3) | ([H3 | H3] & _)]; discriminate.
Qed.

(** C1 (amended): the engine merges two records iff their identity keys
    are equal, and the keys are equal iff both have a non-empty DOI and
    the DOIs are equal without regard to case, or both lack a DOI and
    their lowercased titles and their years are equal ([None] equal to
    [None]), or exactly one has a DOI and its lowercased DOI is the
    title-and-year key of the other. *)
Theorem merged_iff_same_key a b :
  ((exists r, reconcile [a; b] = Ok [r]) <-> identity_key a = identity_key b) /\
  (reconcile [a; b] = Ok [a; b] <-> identity_key a <> identity_key b) /\
  (identity_key a = identity_key b <->
     (truthy_str (doi a) = true /\ truthy_str (doi b) = true /\
      attr_lower (doi a) = attr_lower (doi b))
     \/ (truthy_str (doi a) = false /\ truthy_str (doi b) = false /\
         lower (title a) = lower (title b) /\ year a = year b)
     \/ (truthy_str (doi a) = true /\ truthy_str (doi b) = false /\
         attr_lower (doi a) = Ok (fallback_key b))
     \/ (truthy_str (doi a) = false /\ truthy_str (doi b) = true /\
         attr_lower (doi b) = Ok (fallback_key a))).
Proof.
  split; [| split; [| apply identity_key_cases]];
    rewrite identity_key_eq, reconcile_pair; case_bool_decide as Hk.
  - split; [done | eauto].
  - split; [intros [r [=]] | done].
  - split; [intros [=] | done].
  - done.
Qed.

(** Two same-titled records without a DOI and without a year merge. *)
Example yearless_same_title_merged :
  reconcile [bare "Foo"; bare "foo"]
  = Ok [set_source ", " (bare "Foo")].
Proof. reflexivity. Qed.

Example fallback_same_year :
  reconcile [titled "Foo" (Some 2020); titled "foo" (Some 2020)]
  = Ok [set_source ", " (titled "Foo" (Some 2020))].
Proof. reflexivity. Qed.

Example fallback_differing_year :
  reconcile [titled "Foo" (Some 2020); titled "foo" (Some 2021)]
  = Ok [titled "Foo" (Some 2020); titled "foo" (Some 2021)].
Proof. reflexivity. Qed.

(** ** The engine: one merge *)

(** C2, as stated, fails: the year of the primary is missing, the year
    of the incoming record with the same key is 2020, and the merged
    record still has no year. *)
Lemma missing_year_not_filled :
  exists r, reconcile [pubA_no_year; pubA_2020] = Ok [r] /\
            year pubA_no_year = None /\ year pubA_2020 = Some 2020 /\
            year r = None.
Proof. eexists. repeat split. Qed.

(** C2 (amended): merging the incoming object [pub], with record [B],
    into the primary object [existing], with record [A], leaves the
    title, the year and the DOI of [A] as they are; it sets [source] to
    the two labels joined by a comma and a space; and each of authors,
    journal, abstract, url, volume, issue, pages, publisher, citations
    and type keeps the value of [A] if that is true (neither [None] nor
    empty nor zero), else takes the value of [B] if that is true, else
    keeps the value of [A].  No other object changes. *)
Theorem merge_into_fills_missing (h : heap) existing pub A B :
  h !! existing = Some A -> h !! pub = Some B ->
  exists R,
    merge_into existing pub h = Ok (tt, <[existing := R]> h) /\
    title R = title A /\ year R = year A /\ doi R = doi A /\
    source R = source A +:+ ", " +:+ source B /\
    authors R = filled truthy_list (authors A) (authors B) /\
    journal R = filled truthy_str (journal A) (journal B) /\
    abstract R = filled truthy_str (abstract A) (abstract B) /\
    url R = filled truthy_str (url A) (url B) /\
    volume R = filled truthy_str (volume A) (volume B) /\
    issue R = filled truthy_str (issue A) (issue B) /\
    pages R = filled truthy_str (pages A) (pages B) /\
    publisher R = filled truthy_str (publisher A) (publisher B) /\
    citations R = filled truthy_int (citations A) (citations B) /\
    type R = filled truthy_str (type A) (type B).
Proof.
  intros He Hp. exists (merge_record A B).
  split; [by apply merge_into_run |].
  repeat split;
    auto using merge_record_title, merge_record_year, merge_record_doi,
      merge_record_source, merge_record_authors, merge_record_journal,
      merge_record_abstract, merge_record_url, merge_record_volume,
      merge_record_issue, merge_record_pages, merge_record_publisher,
      merge_record_citations, merge_record_type.
Qed.

Lemma merge_into_fills_missing_witness :
  exists R,
    merge_into 0%nat 1%nat [pubA; pubB] = Ok (tt, <[0%nat := R]> [pubA; pubB]) /\
    title R = title pubA /\ year R = year pubA /\ doi R = doi pubA /\
    source R = source pubA +:+ ", " +:+ source pubB /\
    authors R = filled truthy_list (authors pubA) (authors pubB) /\
    journal R = filled truthy_str (journal pubA) (journal pubB) /\
    abstract R = filled truthy_str (abstract pubA) (abstract pubB) /\
    url R = filled truthy_str (url pubA) (url pubB) /\
    volume R = filled truthy_str (volume pubA) (volume pubB) /\
    issue R = filled truthy_str (issue pubA) (issue pubB) /\
    pages R = filled truthy_str (pages pubA) (pages pubB) /\
    publisher R = filled truthy_str (publisher pubA) (publisher pubB) /\
    citations R = filled truthy_int (citations pubA) (citations pubB) /\
    type R = filled truthy_str (type pubA) (type pubB).
Proof.
  apply (merge_into_fills_missing [pubA; pubB] 0%nat 1%nat pubA pubB);
    reflexivity.
Defined.

Example journal_kept :
  reconcile [with_journal (Some "A") "P"; with_journal (Some "B") "Q"]
  = Ok [with_journal (Some "A") "P, Q"].
Proof. reflexivity. Qed.

Example journal_filled :
  reconcile [with_journal None "P"; with_journal (Some "B") "Q"]
  = Ok [with_journal (Some "B") "P, Q"].
Proof. reflexivity. Qed.

(** A count of zero is false, so it gives way to the incoming count. *)
Example zero_citations_replaced :
  reconcile [set_citations (Some 0) (bare "t"); set_citations (Some 5) (bare "t")]
  = Ok [set_source ", " (set_citations (Some 5) (bare "t"))].
Proof. reflexivity. Qed.

(** ** The engine: totality, keys, order of the input *)

Lemma reconcile_returns xs :
  exists out, reconcile xs = Ok out /\ (length out <= length xs)%nat.
Proof.
  destruct (reconcile_spec xs) as (h' & out & _ & _ & Hr & _ & _ & HF).
  exists out. split; [done |].
  rewrite <- (length_map key_of out), (reconcile_keys xs out Hr).
  rewrite <- (length_map key_of xs). apply length_first_occurrences.
Qed.

(** C6: the engine is total.  The key of a record is computed without
    an exception whatever optional fields are missing, and on every
    sequence of records the engine raises nothing and returns a
    sequence, no longer than its input. *)
Theorem reconcile_total xs :
  (forall pub, exists k, identity_key pub = Ok k) /\
  exists out, reconcile xs = Ok out /\ (length out <= length xs)%nat.
Proof.
  split; [| apply reconcile_returns].
  intros pub. exists (key_of pub). apply identity_key_total.
Qed.

Example reconcile_all_missing :
  reconcile [bare ""; bare "x"; bare ""]
  = Ok [set_source ", " (bare ""); bare "x"].
Proof. reflexivity. Qed.

(** C3, as stated, fails: [pubA; pubB] and [pubB; pubA] are permutations
    of each other and both give one record with the same key, but not
    the same record: the title is that of the first seen and the
    source labels come in the order of the input. *)
Lemma content_depends_on_order :
  ~ (forall xs ys, xs ≡ₚ ys ->
       forall o1 o2 r1 r2,
         reconcile xs = Ok o1 -> reconcile ys = Ok o2 ->
         r1 ∈ o1 -> r2 ∈ o2 -> identity_key r1 = identity_key r2 ->
         r1 = r2).
Proof.
  intros H.
  specialize (H [pubA; pubB] [pubB; pubA] (perm_swap _ _ _)
                _ _ (merge_record pubA pubB) (merge_record pubB pubA)
                eq_refl eq_refl).
  assert (E : merge_record pubA pubB = merge_record pubB pubA).
  { apply H; [by left | by left | reflexivity]. }
  discriminate E.
Qed.

(** C3 (amended): reconciling a permutation of the input gives the same
    set of identity keys, each once, hence as many records; the keys are
    emitted in first-seen order of that input. *)
Theorem reconcile_permutation_keys xs ys :
  xs ≡ₚ ys ->
  exists o1 o2,
    reconcile xs = Ok o1 /\ reconcile ys = Ok o2 /\
    map identity_key o1 ≡ₚ map identity_key o2 /\
    NoDup (map identity_key o1) /\
    (forall k, k ∈ map identity_key o1 <-> k ∈ map identity_key xs) /\
    length o1 = length o2 /\
    map key_of o1 = first_occurrences [] (map key_of xs) /\
    map key_of o2 = first_occurrences [] (map key_of ys).
Proof.
  intros HP.
  destruct (reconcile_returns xs) as (o1 & H1 & _).
  destruct (reconcile_returns ys) as (o2 & H2 & _).
  pose proof (reconcile_keys _ _ H1) as K1.
  pose proof (reconcile_keys _ _ H2) as K2.
  assert (HPk : map key_of o1 ≡ₚ map key_of o2).
  { rewrite K1, K2. apply first_occurrences_Permutation. by rewrite HP. }
  exists o1, o2. repeat split; try done.
  - rewrite !map_identity_key. by rewrite HPk.
  - rewrite map_identity_key, K1.
    apply (NoDup_fmap_2 Ok), NoDup_first_occurrences.
  - rewrite !map_identity_key, K1. intros Hk.
    apply list_elem_of_fmap in Hk as (k' & -> & Hk).
    apply elem_of_first_occurrences in Hk as [_ Hk].
    apply list_elem_of_fmap. eauto.
  - rewrite !map_identity_key, K1. intros Hk.
    apply list_elem_of_fmap in Hk as (k' & -> & Hk).
    apply list_elem_of_fmap. exists k'. split; [done |].
    apply elem_of_first_occurrences. split; [| done]. intros H. inversion H.
  - rewrite <- (length_map key_of o1), <- (length_map key_of o2).
    by rewrite HPk.
Qed.

Lemma reconcile_permutation_keys_witness :
  exists o1 o2,
    reconcile [pubA; pubB; bare "t"] = Ok o1 /\
    reconcile [pubB; bare "t"; pubA] = Ok o2 /\
    map identity_key o1 ≡ₚ map identity_key o2 /\
    NoDup (map identity_key o1) /\
    (forall k, k ∈ map identity_key o1
               <-> k ∈ map identity_key [pubA; pubB; bare "t"]) /\
    length o1 = length o2 /\
    map key_of o1 = first_occurrences [] (map key_of [pubA; pubB; bare "t"]) /\
    map key_of o2 = first_occurrences [] (map key_of [pubB; bare "t"; pubA]).
Proof.
  apply (reconcile_permutation_keys [pubA; pubB; bare "t"] [pubB; bare "t"; pubA]).
  apply (Permutation_cons_append [pubB; bare "t"] pubA).
Defined.

Lemma keys_at_entries (h' : heap) (l : list (string * addr)) out :
  Forall2 (fun ka r => h' !! ka.2 = Some r /\ key_of r = ka.1) l out ->
  keys_at h' (l.*2) = l.*1 /\ Forall (fun a => a < length h')%nat (l.*2).
Proof.
  induction 1 as [|[k a] r l out [Ha Hk] _ [IH1 IH2]]; [done |].
  rewrite !fmap_cons. cbn [fst snd] in *. split.
  - rewrite (keys_at_cons h' a r) by done. by rewrite Hk, IH1.
  - constructor; [eauto using lookup_lt_Some | done].
Qed.

(** C4: reconciliation is idempotent.  The engine, run on its own
    output, returns that output and changes none of its records: this
    holds for a second call on the returned list of objects, and for a
    call on the returned records as a new input. *)
Theorem reconcile_idempotent xs :
  exists refs h' out,
    merge_publications (seq 0 (length xs)) xs = Ok (refs, h') /\
    merge_publications refs h' = Ok (refs, h') /\
    reconcile xs = Ok out /\ reconcile out = Ok out /\ inputs_after out = Ok out.
Proof.
  destruct (reconcile_spec xs) as (h' & out & Hm & _ & Hr & _ & _ & HF).
  exists ((entries xs).*2), h', out. split; [done |].
  assert (ND : NoDup (map key_of out)).
  { rewrite (reconcile_keys _ _ Hr). apply NoDup_first_occurrences. }
  split; [| split; [done | by apply reconcile_distinct]].
  destruct (keys_at_entries _ _ _ HF) as [Hk Hv].
  destruct (merge_loop_distinct ((entries xs).*2) [] h') as [Hrun Hfs].
  - done.
  - rewrite Hk, <- (Forall2_entries_keys _ _ _ HF). done.
  - intros k _ H. inversion H.
  - simpl in Hrun, Hfs. unfold merge_publications.
    rewrite (exec_bind_ok _ _ _ _ _ Hrun). cbn [mret Exec_ret]. by rewrite Hfs.
Qed.

(** C10: the engine never changes the title, the year or the DOI of an
    object, so the key of every object stays what it was; each record of
    the output has the key under which its object was put in the dict;
    and the keys of the output records are pairwise distinct. *)
Theorem reconcile_keeps_identity xs :
  exists merged h' out,
    merge_loop (seq 0 (length xs)) [] xs = Ok (merged, h') /\
    reconcile xs = Ok out /\
    (forall i x, xs !! i = Some x ->
       exists x', h' !! i = Some x' /\
         title x' = title x /\ year x' = year x /\ doi x' = doi x /\
         identity_key x' = identity_key x) /\
    Forall2 (fun ka r =>
               h' !! ka.2 = Some r /\ identity_key r = Ok ka.1 /\
               exists x, xs !! ka.2 = Some x /\ identity_key x = Ok ka.1 /\
                 title r = title x /\ year r = year x /\ doi r = doi x)
            merged out /\
    NoDup (map identity_key out).
Proof.
  destruct (merge_loop_spec (seq 0 (length xs)) [] xs) as (h' & Hrun & _);
    [apply dict_ok_empty | apply seq_valid |].
  destruct (reconcile_spec xs) as (h2 & out & Hm & _ & Hr & Hs & _ & HF).
  assert (h2 = h') as ->.
  { unfold merge_publications in Hm.
    rewrite (exec_bind_ok _ _ _ _ _ Hrun) in Hm. by injection Hm. }
  simpl in Hrun. fold (entries xs) in Hrun.
  exists (entries xs), h', out. split; [done |]. split; [done |].
  assert (Hids : forall i x, xs !! i = Some x ->
       exists x', h' !! i = Some x' /\
         title x' = title x /\ year x' = year x /\ doi x' = doi x /\
         identity_key x' = identity_key x).
  { intros i x Hx. destruct (proj2 Hs _ _ Hx) as (x' & Hx' & Ht & Hy & Hd & _).
    exists x'. repeat split; try done.
    apply identity_key_eq. by apply key_of_ids. }
  split; [done |]. split.
  - eapply Forall2_impl; [exact HF |]. intros [k a] r [Hr' Hk]. simpl in *.
    split; [done |]. split; [by rewrite identity_key_total, Hk |].
    destruct (xs !! a) as [x|] eqn:Hx.
    + destruct (Hids _ _ Hx) as (x' & Hx' & Ht & Hy & Hd & Hkx).
      assert (x' = r) as -> by congruence.
      exists x. repeat split; try done.
      by rewrite <- Hkx, identity_key_total, Hk.
    + apply lookup_ge_None in Hx. destruct Hs as [Hl _]. rewrite <- Hl in Hx.
      apply lookup_ge_None in Hx. congruence.
  - rewrite map_identity_key, (reconcile_keys _ _ Hr).
    apply (NoDup_fmap_2 Ok), NoDup_first_occurrences.
Qed.

(** ** The engine: what it changes in place *)

Lemma elem_of_keys_at (h : heap) k l :
  k ∈ keys_at h l <-> exists a, a ∈ l /\ key_at h a = Some k.
Proof. unfold keys_at. apply list_elem_of_omap. Qed.

Lemma keys_at_ext h h' l :
  (forall a, key_at h' a = key_at h a) -> keys_at h' l = keys_at h l.
Proof.
  intros H. unfold keys_at. induction l as [|a l IH]; [done |].
  change (omap (key_at h') (a :: l))
    with (from_option (fun k => k :: omap (key_at h') l)
                      (omap (key_at h') l) (key_at h' a)).
  change (omap (key_at h) (a :: l))
    with (from_option (fun k => k :: omap (key_at h) l)
                      (omap (key_at h) l) (key_at h a)).
  by rewrite H, IH.
Qed.

Lemma no_later_dup_ext h h' a l :
  (forall a, key_at h' a = key_at h a) ->
  no_later_dup h a l -> no_later_dup h' a l.
Proof.
  intros H. induction l as [|p l IH]; simpl; [done |].
  intros [H1 H2]. split; [| auto].
  intros -> k Hk. rewrite (keys_at_ext h h') by done.
  apply H1; [done | by rewrite <- H].
Qed.

Lemma dict_unique (merged : dict) k a b :
  NoDup (merged.*1) -> (k, a) ∈ merged -> (k, b) ∈ merged -> a = b.
Proof.
  induction merged as [|[k' c] m IH]; simpl; intros ND Ha Hb; [inversion Ha |].
  apply NoDup_cons in ND as [Hn ND].
  apply elem_of_cons in Ha as [Ha | Ha], Hb as [Hb | Hb].
  - congruence.
  - injection Ha as -> ->. exfalso. apply Hn.
    apply list_elem_of_fmap. by exists (k', b).
  - injection Hb as -> ->. exfalso. apply Hn.
    apply list_elem_of_fmap. by exists (k', a).
  - by apply IH.
Qed.

(** A dict entry comes from the first reference with its key. *)
Lemma first_seen_seq_first h m : forall s seen k i,
  (k, i) ∈ first_seen h seen (seq s m) ->
  forall j, (s <= j < i)%nat -> key_at h j <> Some k.
Proof.
  induction m as [|m IH]; intros s seen k i; simpl.
  - intros H. inversion H.
  - destruct (h !! s) as [o|] eqn:Hs; [| intros H; inversion H].
    assert (Hrest : forall seen', (k, i) ∈ first_seen h seen' (seq (S s) m) ->
              k <> key_of o -> forall j, (s <= j < i)%nat -> key_at h j <> Some k).
    { intros seen' Hin Hne j Hj. destruct (decide (j = s)) as [-> | Hjs].
      - unfold key_at. rewrite Hs. simpl. congruence.
      - apply (IH _ _ _ _ Hin). lia. }
    case_bool_decide as Hseen.
    + intros Hin. apply (Hrest _ Hin). intros ->.
      by apply first_seen_not_seen in Hin.
    + rewrite elem_of_cons. intros [[= -> ->] | Hin]; [intros j Hj; lia |].
      apply (Hrest _ Hin). intros ->.
      apply first_seen_not_seen in Hin. apply Hin.
      apply elem_of_app. right. by apply list_elem_of_singleton.
Qed.

(** An object is left alone when no later reference has its key. *)
Lemma merge_loop_frame_last refs a : forall (merged : dict) (h : heap),
  dict_ok h merged -> Forall (fun p => p < length h)%nat refs ->
  (forall k, (k, a) ∈ merged -> k ∉ keys_at h refs) ->
  no_later_dup h a refs ->
  forall merged' h', merge_loop refs merged h = Ok (merged', h') ->
    h' !! a = h !! a.
Proof.
  induction refs as [|p rest IH]; intros merged h Hok Hv H1 H2 merged' h' Hrun.
  - simpl in Hrun. by injection Hrun as _ <-.
  - apply Forall_cons in Hv as [Hp Hv].
    apply lookup_lt_is_Some_2 in Hp as [o Hp].
    rewrite (keys_at_cons h p o) in H1 by done.
    destruct H2 as [H2 H3].
    destruct (dict_get (key_of o) merged) as [e|] eqn:Hk.
    + pose proof (dict_get_Some _ _ _ Hk) as Hin.
      destruct (proj2 Hok _ _ Hin) as (x & He & Hkx).
      rewrite (merge_loop_dup h p o e x) in Hrun by done.
      assert (Hne : e <> a).
      { intros ->. apply (H1 _ Hin). by left. }
      pose proof (same_ids_merge h e x o He) as Hs.
      erewrite IH; [by apply list_lookup_insert_ne | by apply dict_ok_merge
                   | by rewrite length_insert | | | exact Hrun].
      * intros k Hka. rewrite (keys_at_ext h) by (intros; by apply same_ids_key_at).
        intros Hk'. apply (H1 _ Hka). by right.
      * apply (no_later_dup_ext h); [| done]. intros. by apply same_ids_key_at.
    + rewrite (merge_loop_new h p o) in Hrun by done.
      apply (IH (merged ++ [(key_of o, p)]) h) with (merged' := merged'); try done.
      * by apply dict_ok_new.
      * intros k Hka. apply elem_of_app in Hka as [Hka | Hka].
        -- intros Hk'. apply (H1 _ Hka). by right.
        -- apply list_elem_of_singleton in Hka. injection Hka as -> ->.
           apply H2; [done |]. unfold key_at. by rewrite Hp.
Qed.

(** A later reference with the key of a stored object extends the
    source label of that object. *)
Lemma merge_loop_grows refs : forall (merged : dict) (h : heap) k a o,
  dict_ok h merged -> Forall (fun p => p < length h)%nat refs ->
  (k, a) ∈ merged -> h !! a = Some o -> k ∈ keys_at h refs ->
  exists merged' h' o',
    merge_loop refs merged h = Ok (merged', h') /\ h' !! a = Some o' /\
    (String.length (source o) < String.length (source o'))%nat.
Proof.
  induction refs as [|p rest IH]; intros merged h k a o Hok Hv Hka Ha Hk.
  - inversion Hk.
  - apply Forall_cons in Hv as [Hp Hv].
    apply lookup_lt_is_Some_2 in Hp as [op Hp].
    rewrite (keys_at_cons h p op) in Hk by done.
    destruct (dict_get (key_of op) merged) as [e|] eqn:Hg.
    + pose proof (dict_get_Some _ _ _ Hg) as Hin.
      destruct (proj2 Hok _ _ Hin) as (x & He & Hkx).
      rewrite (merge_loop_dup h p op e x) by done.
      pose proof (same_ids_merge h e x op He) as Hs.
      destruct (decide (key_of op = k)) as [Hkk | Hkk].
      * subst k. assert (e = a) as -> by (eapply dict_unique; [apply Hok | done..]).
        assert (x = o) as -> by congruence.
        destruct (merge_loop_spec rest merged (<[a := merge_record o op]> h))
          as (h' & Hrun & [_ Hs'] & _).
        { by apply dict_ok_merge. }
        { by rewrite length_insert. }
        destruct (Hs' a (merge_record o op)) as (o' & Ho' & _ & _ & _ & Hlen).
        { apply list_lookup_insert_eq. eauto using lookup_lt_Some. }
        pose proof (merge_record_source_longer o op).
        eexists _, h', o'. split; [exact Hrun |]. split; [done | lia].
      * assert (Hne : e <> a).
        { intros ->. destruct (proj2 Hok _ _ Hka) as (o2 & Ho2 & Hk2). congruence. }
        apply (IH merged (<[e := merge_record x op]> h) k a o).
        -- by apply dict_ok_merge.
        -- by rewrite length_insert.
        -- done.
        -- by rewrite list_lookup_insert_ne.
        -- rewrite (keys_at_ext h) by (intros; by apply same_ids_key_at).
           apply elem_of_cons in Hk as [-> | Hk]; done.
    + rewrite (merge_loop_new h p op) by done.
      assert (Hkk : key_of op <> k).
      { intros <-. apply dict_get_None in Hg. apply Hg.
        apply list_elem_of_fmap. by exists (key_of op, a). }
      apply (IH (merged ++ [(key_of op, p)]) h k a o); try done.
      * by apply dict_ok_new.
      * apply elem_of_app. by left.
      * apply elem_of_cons in Hk as [-> | Hk]; done.
Qed.

Lemma merge_loop_app l1 l2 : forall (merged : dict) (h : heap),
  merge_loop (l1 ++ l2) merged h
  = match merge_loop l1 merged h with
    | Ok (m1, h1) => merge_loop l2 m1 h1
    | Raise e => Raise e
    end.
Proof.
  induction l1 as [|p l1 IH]; intros merged h; [done |].
  simpl. unfold mbind, Exec_bind, getattr, lift, id.
  destruct (h !! p) as [o|]; [| reflexivity].
  destruct (identity_key o) as [k|]; [| reflexivity].
  destruct (dict_get k merged) as [e|]; [| apply IH].
  destruct (merge_into e p h) as [[[] h1]|]; [apply IH | reflexivity].
Qed.

(** C5, as stated, fails: after the engine has run on [pubA; pubB], the
    first input object no longer holds the record [pubA]: its journal is
    filled and its source label is extended. *)
Lemma input_record_mutated :
  exists h', inputs_after [pubA; pubB] = Ok h' /\
    h' !! 0%nat = Some (merge_record pubA pubB) /\
    h' !! 0%nat <> Some pubA /\ source (merge_record pubA pubB) = "A, B".
Proof. eexists. repeat split. discriminate. Qed.

(** C5 (amended): the engine keeps the input list as it is and updates
    records in place.  A record is left unchanged when an earlier record
    has its key, and when no later record has its key; so nothing is
    changed when the keys are pairwise distinct.  The first record of
    a key that a later record shares is changed: its source label is
    extended. *)
Theorem reconcile_changes_first_seen_only xs :
  exists h',
    inputs_after xs = Ok h' /\ length h' = length xs /\
    (forall i j x y, (j < i)%nat -> xs !! i = Some x -> xs !! j = Some y ->
       identity_key y = identity_key x -> h' !! i = Some x) /\
    (forall i x, xs !! i = Some x ->
       (forall j y, (i < j)%nat -> xs !! j = Some y ->
          identity_key y <> identity_key x) ->
       h' !! i = Some x) /\
    (NoDup (map identity_key xs) -> h' = xs) /\
    (forall i j x y, (i < j)%nat -> xs !! i = Some x -> xs !! j = Some y ->
       identity_key y = identity_key x ->
       (forall j' y', (j' < i)%nat -> xs !! j' = Some y' ->
          identity_key y' <> identity_key x) ->
       exists x', h' !! i = Some x' /\ source x' <> source x).
Proof.
  destruct (merge_loop_spec (seq 0 (length xs)) [] xs) as (h' & Hrun & Hs & Hf);
    [apply dict_ok_empty | apply seq_valid |].
  simpl in Hrun, Hf.
  assert (Hia : inputs_after xs = Ok h').
  { unfold inputs_after, merge_publications.
    by rewrite (exec_bind_ok _ _ _ _ _ Hrun). }
  exists h'. split; [done |]. split; [apply Hs |].
  assert (Hkey : forall i x, xs !! i = Some x -> key_at xs i = Some (key_of x)).
  { intros i x Hx. unfold key_at. by rewrite Hx. }
  split; [| split; [| split]].
  - intros i j x y Hji Hx Hy Hk. rewrite Hf; [done |].
    intros Hin. apply list_elem_of_fmap in Hin as ([k i'] & -> & Hin). simpl in *.
    pose proof (first_seen_entry _ _ _ _ _ Hin) as [_ Hki].
    apply (first_seen_seq_first _ _ _ _ _ _ Hin j); [lia |].
    rewrite (Hkey _ _ Hy), <- Hki, (Hkey _ _ Hx). f_equal.
    by apply identity_key_eq.
  - intros i x Hx Hlater.
    assert (Hnl : forall m s, no_later_dup xs i (seq s m)); [| clear Hlater].
    2:{ by rewrite (merge_loop_frame_last _ i _ _ (dict_ok_empty xs)
                      (seq_valid _) ltac:(intros k H; inversion H)
                      (Hnl _ _) _ _ Hrun). }
    intros m. induction m as [|m IH]; intros s; simpl; [done |].
    split; [| apply IH]. intros -> k Hk Hin.
    apply elem_of_keys_at in Hin as (j & Hj & Hkj).
    apply elem_of_seq in Hj.
    unfold key_at in Hkj. destruct (xs !! j) as [y|] eqn:Hy; [| done].
    apply (Hlater j y); [lia | done |].
    apply identity_key_eq. rewrite (Hkey _ _ Hx) in Hk.
    simpl in Hkj. congruence.
  - intros ND. rewrite map_identity_key in ND. apply NoDup_fmap_1 in ND.
    destruct (reconcile_distinct xs ND) as [_ Hia']. congruence.
  - intros i j x y Hij Hx Hy Hk Hfirst.
    pose proof (lookup_lt_Some _ _ _ Hy) as Hjn.
    assert (Hseq : seq 0 (length xs)
                   = seq 0 i ++ i :: seq (S i) (length xs - S i)).
    { replace (length xs) with (i + S (length xs - S i))%nat at 1 by lia.
      by rewrite seq_app. }
    rewrite Hseq, merge_loop_app in Hrun.
    destruct (merge_loop_spec (seq 0 i) [] xs) as (h1 & Hrun1 & Hs1 & Hf1);
      [apply dict_ok_empty | |].
    { apply Forall_forall. intros a Ha. apply elem_of_seq in Ha. lia. }
    simpl in Hrun1, Hf1. rewrite Hrun1 in Hrun.
    set (m1 := first_seen xs [] (seq 0 i)) in *.
    assert (Hx1 : h1 !! i = Some x).
    { rewrite Hf1; [done |]. intros Hin.
      apply list_elem_of_fmap in Hin as ([k a] & -> & Hin).
      apply first_seen_entry in Hin as [Hin _]. apply elem_of_seq in Hin.
      simpl in Hin. lia. }
    assert (Hok1 : dict_ok h1 m1).
    { split.
      - unfold m1. rewrite first_seen_keys.
        + apply NoDup_first_occurrences.
        + apply Forall_forall. intros a Ha. apply elem_of_seq in Ha. lia.
      - intros k a Hka. apply first_seen_entry in Hka as [_ Hka].
        rewrite <- (same_ids_key_at xs h1 a Hs1) in Hka. unfold key_at in Hka.
        destruct (h1 !! a) as [o|]; [| done]. exists o. split; [done |].
        simpl in Hka. congruence. }
    assert (Hnew : dict_get (key_of x) m1 = None).
    { apply dict_get_None. intros Hin.
      apply list_elem_of_fmap in Hin as ([k a] & Hk' & Hin). simpl in Hk'. subst k.
      apply first_seen_entry in Hin as [Hin Hka]. apply elem_of_seq in Hin.
      unfold key_at in Hka. destruct (xs !! a) as [y'|] eqn:Hy'; [| done].
      apply (Hfirst a y'); [lia | done |]. apply identity_key_eq.
      simpl in Hka. congruence. }
    rewrite (merge_loop_new h1 i x) in Hrun by done.
    destruct (merge_loop_grows (seq (S i) (length xs - S i))
                (m1 ++ [(key_of x, i)]) h1 (key_of x) i x)
      as (m' & h2 & x' & Hrun2 & Hx' & Hlen).
    + by apply dict_ok_new.
    + apply Forall_forall. intros a Ha. apply elem_of_seq in Ha.
      destruct Hs1 as [-> _]. lia.
    + apply elem_of_app. right. by apply list_elem_of_singleton.
    + done.
    + apply elem_of_keys_at. exists j. split; [apply elem_of_seq; lia |].
      rewrite (same_ids_key_at xs h1 j Hs1), (Hkey _ _ Hy). f_equal.
      by apply identity_key_eq.
    + rewrite Hrun2 in Hrun. injection Hrun as _ <-.
      exists x'. split; [done |]. intros E. rewrite E in Hlen. lia.
Qed.

(** ** Sorting *)

Section ListSortFacts.
Context {A K : Type} `{EqDecision K} (le : K -> K -> bool) (key : A -> K).
Hypothesis le_total : forall a b, le a b = true \/ le b a = true.
Hypothesis le_trans : forall a b c, le a b = true -> le b c = true -> le a c = true.

Lemma le_refl a : le a a = true.
Proof. by destruct (le_total a a). Qed.

Lemma goes_before_total r x y :
  goes_before le key r x y = false -> goes_before le key r y x = true.
Proof.
  unfold goes_before. destruct r; intros H.
  - destruct (le_total (key y) (key x)); congruence.
  - destruct (le_total (key x) (key y)); congruence.
Qed.

Lemma goes_before_trans r x y z :
  goes_before le key r x y = true -> goes_before le key r y z = true ->
  goes_before le key r x z = true.
Proof. unfold goes_before. destruct r; eauto. Qed.

Lemma sort_insert_perm r x l : sort_insert le key r x l ≡ₚ x :: l.
Proof.
  induction l as [|y l IH]; simpl; [done |].
  destruct (goes_before le key r x y); [done |].
  rewrite IH. apply perm_swap.
Qed.

Lemma list_sort_perm r l : list_sort le key r l ≡ₚ l.
Proof.
  induction l as [|x l IH]; simpl; [done |].
  fold (list_sort le key r l). by rewrite sort_insert_perm, IH.
Qed.

Lemma sort_insert_sorted r x l :
  StronglySorted (fun a b => goes_before le key r a b = true) l ->
  StronglySorted (fun a b => goes_before le key r a b = true)
                 (sort_insert le key r x l).
Proof.
  induction 1 as [|y l HS IH HF]; simpl.
  - repeat constructor.
  - destruct (goes_before le key r x y) eqn:Hxy.
    + constructor; [by constructor |]. constructor; [done |].
      eapply Forall_impl; [exact HF |]. simpl. intros z Hz.
      by apply goes_before_trans with y.
    + constructor; [done |].
      rewrite sort_insert_perm. constructor; [| done].
      by apply goes_before_total.
Qed.

Lemma list_sort_sorted r l :
  StronglySorted (fun a b => goes_before le key r a b = true)
                 (list_sort le key r l).
Proof.
  induction l as [|x l IH]; simpl; [constructor |].
  by apply sort_insert_sorted.
Qed.

Lemma sort_insert_stable r x l k :
  filter (fun y => key y = k) (sort_insert le key r x l)
  = filter (fun y => key y = k) (x :: l).
Proof.
  induction l as [|y l IH]; simpl; [done |].
  destruct (goes_before le key r x y) eqn:Hxy; [done |].
  rewrite (filter_cons _ y), IH, !filter_cons.
  destruct (decide (key y = k)) as [Hy | Hy],
           (decide (key x = k)) as [Hx | Hx]; try done.
  exfalso. unfold goes_before in Hxy. rewrite Hx, Hy in Hxy.
  rewrite le_refl in Hxy. by destruct r.
Qed.

Lemma list_sort_stable r l k :
  filter (fun y => key y = k) (list_sort le key r l)
  = filter (fun y => key y = k) l.
Proof.
  induction l as [|x l IH]; simpl; [done |].
  fold (list_sort le key r l).
  by rewrite sort_insert_stable, !filter_cons, IH.
Qed.

Lemma list_sort_stable_sort_of r l :
  stable_sort_of le key r l (list_sort le key r l).
Proof.
  split; [apply list_sort_perm |]. split; [| apply list_sort_stable].
  pose proof (list_sort_sorted r l) as H. unfold goes_before in H.
  by destruct r.
Qed.
End ListSortFacts.

Lemma Zleb_total a b : (a <=? b) = true \/ (b <=? a) = true.
Proof. rewrite !Z.leb_le. lia. Qed.

Lemma Zleb_trans a b c : (a <=? b) = true -> (b <=? c) = true -> (a <=? c) = true.
Proof. rewrite !Z.leb_le. lia. Qed.

Lemma String_leb_trans (a b c : string) :
  String.leb a b = true -> String.leb b c = true -> String.leb a c = true.
Proof.
  intros H1 H2. apply Is_true_true.
  change (String.le a c). transitivity b; by apply Is_true_true.
Qed.

Lemma or_zero_default v : or_zero v = default 0 v.
Proof.
  destruct v as [n|]; simpl; [| done].
  destruct (Z.eqb_spec n 0); simpl; congruence.
Qed.

(** C7: the sort step.  Sorting by year or by citations orders the
    records by that number, a missing one counting as zero; sorting by
    title orders them by the lowercased title; the order is ascending, or
    descending under the reverse flag; and the sort is stable: records
    with the same key keep the order the engine gave them.  Without a
    sort option the key is the year. *)
Theorem sort_publications_stable reverse l :
  stable_sort_of Z.leb year_key reverse l
                 (sort_publications (Some "year") reverse l) /\
  stable_sort_of String.leb title_key reverse l
                 (sort_publications (Some "title") reverse l) /\
  stable_sort_of Z.leb citations_key reverse l
                 (sort_publications (Some "citations") reverse l) /\
  sort_publications None reverse l = sort_publications (Some "year") reverse l /\
  (forall x, year_key x = default 0 (year x)) /\
  (forall x, citations_key x = default 0 (citations x)) /\
  (forall x, title_key x = lower (title x)).
Proof.
  repeat split; try (intros; apply or_zero_default);
    try apply (list_sort_perm (K := Z));
    try apply (list_sort_perm (K := string));
    try apply (list_sort_stable (K := Z) Z.leb _ Zleb_total);
    try apply (list_sort_stable (K := string) String.leb _ String.leb_total);
    try apply (list_sort_stable_sort_of Z.leb _ Zleb_total Zleb_trans);
    apply (list_sort_stable_sort_of String.leb _ String.leb_total String_leb_trans).
Qed.

Example same_year_order_kept :
  sort_publications (Some "year") false same_year_records = same_year_records /\
  sort_publications (Some "year") true same_year_records = same_year_records /\
  sort_publications (Some "title") false same_year_records
  = [titled "a" (Some 2020); titled "b" (Some 2020); titled "c" (Some 2020)].
Proof. repeat split. Qed.

Example missing_year_sorts_first :
  sort_publications None false [titled "x" (Some 1999); titled "y" None]
  = [titled "y" None; titled "x" (Some 1999)] /\
  sort_publications None true [titled "y" None; titled "x" (Some 1999)]
  = [titled "x" (Some 1999); titled "y" None].
Proof. repeat split. Qed.

(** ** CSV output *)

Lemma csv_row_raises pub :
  DictWriter_row fieldnames (csv_pub_dict pub) = Raise ValueError.
Proof. reflexivity. Qed.

(** C9 fails on the code: the field names given to the writer leave out
    [publisher] and [abstract], which every row dict has, so the first
    row raises [ValueError]; only the header reaches the file.  The call
    succeeds on the empty sequence alone. *)
Theorem save_to_csv_raises pub rest :
  save_to_csv (pub :: rest) = ([map VStr fieldnames], Raise ValueError) /\
  save_to_csv [] = ([map VStr fieldnames], Ok tt) /\
  filter (fun k => k ∉ fieldnames) ((vars pub).*1) = ["publisher"; "abstract"].
Proof. repeat split. Qed.

(** Were the two names among the field names, a row would be written
    with the authors joined by a semicolon and a space. *)
Example csv_row_with_all_fields :
  DictWriter_row (fieldnames ++ ["publisher"; "abstract"])
    (csv_pub_dict (set_authors ["A. Author"; "B. Author"] pubB))
  = Ok [VStr "Alpha (preprint)"; VStr "A. Author; B. Author"; VInt 2019;
        VStr "J"; VNone; VNone; VNone; VStr "10.1/x"; VNone; VNone; VNone;
        VStr "B"; VNone; VNone].
Proof. reflexivity. Qed.

(** ** The ORCID check *)

Lemma re_d_matches c : re_set_matches re_d c = is_digit c.
Proof.
  unfold re_set_matches. cbn [re_d digits chars andb].
  rewrite bool_decide_eq_false_2 by apply not_elem_of_nil.
  apply orb_false_r.
Qed.

Lemma re_hyphen_matches c : re_set_matches re_hyphen c = bool_decide (c = "-"%char).
Proof.
  unfold re_set_matches. cbn [re_hyphen digits chars andb orb].
  apply bool_decide_ext, list_elem_of_singleton.
Qed.

Lemma re_last_matches c :
  re_set_matches (ReSet true ["X"%char]) c
  = is_digit c || bool_decide (c = "X"%char).
Proof.
  unfold re_set_matches. cbn [digits chars andb]. f_equal.
  apply bool_decide_ext, list_elem_of_singleton.
Qed.

Lemma re_match_sets_orcid s rest :
  re_match_sets orcid_pattern s = Some rest <->
  exists t, s = t +:+ rest /\ structurally_valid_orcid t = true.
Proof.
  split.
  - intros H.
    unfold orcid_pattern in H. cbn [replicate app] in H.
    do 19 (destruct s as [|? s]; [discriminate |];
           cbn [re_match_sets] in H;
           rewrite ?re_d_matches, ?re_hyphen_matches, ?re_last_matches in H;
           match type of H with
           | (if ?b then _ else _) = _ => destruct b eqn:?; [| discriminate]
           end).
    injection H as <-.
    repeat match goal with
    | E : bool_decide _ = true |- _ => apply bool_decide_eq_true in E; subst
    end.
    eexists (String _ (String _ (String _ (String _ (String _ (String _ (String _ (String _ (String _ (String _ (String _ (String _ (String _ (String _ (String _ (String _ (String _ (String _ (String _ EmptyString))))))))))))))))))).
    split; [reflexivity |].
    unfold structurally_valid_orcid, orcid_group, orcid_last_group. simpl.
    repeat match goal with E : _ = true |- _ => rewrite E; clear E end.
    reflexivity.
  - intros (t & -> & H).
    unfold structurally_valid_orcid in H.
    do 19 (destruct t as [|? t]; [discriminate |]).
    destruct t; [| discriminate].
    unfold orcid_group, orcid_last_group in H. simpl in H.
    repeat match type of H with
    | _ && _ = true => apply andb_true_iff in H as [H ?]
    end.
    repeat match goal with
    | E : _ && _ = true |- _ => apply andb_true_iff in E as [? ?]
    | E : bool_decide _ = true |- _ => apply bool_decide_eq_true in E; subst
    end.
    unfold orcid_pattern. cbv [replicate app String.append].
    repeat (cbn [re_match_sets];
            rewrite ?re_d_matches, ?re_hyphen_matches, ?re_last_matches;
            match goal with
            | E : ?b = true |- context [if ?b then _ else _] => rewrite E
            | |- context [bool_decide (?c = ?c)] =>
                rewrite (bool_decide_eq_true_2 (c = c)) by done
            end).
    reflexivity.
Qed.

Lemma append_nil_r s : s +:+ "" = s.
Proof. induction s as [|c s IH]; cbv [String.append]; [done |]. fold String.append. by rewrite IH. Qed.

Lemma append_inj_length s1 s2 t1 t2 :
  String.length s1 = String.length s2 -> s1 +:+ t1 = s2 +:+ t2 -> s1 = s2 /\ t1 = t2.
Proof.
  revert s2. induction s1 as [|c s1 IH]; intros [|d s2] Hl E; try discriminate.
  - done.
  - cbv [String.append] in E. fold String.append in E.
    injection E as -> E. injection Hl as Hl. by destruct (IH _ Hl E) as [-> ->].
Qed.

Lemma structurally_valid_length s :
  structurally_valid_orcid s = true -> String.length s = 19%nat.
Proof.
  unfold structurally_valid_orcid. intros H.
  do 19 (destruct s as [|? s]; [discriminate |]).
  by destruct s.
Qed.

Lemma re_match_orcid_iff s :
  re_match orcid_pattern s = true <->
  structurally_valid_orcid s = true
  \/ exists t, s = t +:+ String newline EmptyString /\ structurally_valid_orcid t = true.
Proof.
  unfold re_match.
  destruct (re_match_sets orcid_pattern s) as [rest|] eqn:E.
  - apply re_match_sets_orcid in E as (t & -> & Ht).
    unfold re_at_dollar. rewrite orb_true_iff, !bool_decide_eq_true. split.
    + intros [-> | ->]; [left; by rewrite append_nil_r | right; eauto].
    + pose proof (structurally_valid_length _ Ht) as Hl.
      intros [H | (t' & Heq & Ht')].
      * left. apply structurally_valid_length in H.
        rewrite length_append in H. destruct rest; [done | simpl in H; lia].
      * right. apply structurally_valid_length in Ht'.
        apply append_inj_length in Heq as [_ ->]; [done | congruence].
  - split; [done |]. intros [H | (t & -> & Ht)].
    + assert (Hs : re_match_sets orcid_pattern s = Some "").
      { apply re_match_sets_orcid. exists s. by rewrite append_nil_r. }
      congruence.
    + assert (Hs : re_match_sets orcid_pattern (t +:+ String newline "")
                   = Some (String newline "")).
      { apply re_match_sets_orcid. eauto. }
      congruence.
Qed.

(** Apart from the final newline, the check of [main] is the structural
    check: an identifier that is neither of the right form nor of the
    right form followed by a newline is refused with status 1 before any
    request, and one of the right form goes on. *)
Lemma main_refuses_malformed (rest : string -> list event * Z) orcid :
  structurally_valid_orcid orcid = false ->
  (forall t, orcid = t +:+ String newline EmptyString ->
             structurally_valid_orcid t = false) ->
  main rest orcid
  = ([PrintErr "Invalid ORCID format. Expected: XXXX-XXXX-XXXX-XXXX"], 1)
  /\ existsb is_network (main rest orcid).1 = false.
Proof.
  intros H1 H2.
  assert (Hm : re_match orcid_pattern orcid = false).
  { apply not_true_is_false. intros Hm.
    apply re_match_orcid_iff in Hm as [Hm | (t & Ht & Hm)]; [congruence |].
    rewrite (H2 _ Ht) in Hm. discriminate. }
  unfold main. by rewrite Hm.
Qed.

Lemma main_goes_on_when_valid (rest : string -> list event * Z) orcid :
  structurally_valid_orcid orcid = true ->
  main rest orcid
  = (Print ("Retrieving publications for ORCID: " +:+ orcid)
       :: HttpGet ("https://pub.orcid.org/v3.0/" +:+ orcid)
       :: (rest orcid).1,
     (rest orcid).2).
Proof.
  intros H. assert (Hm : re_match orcid_pattern orcid = true)
    by (apply re_match_orcid_iff; by left).
  unfold main. rewrite Hm. simpl. by destruct (rest orcid).
Qed.

Section MainFacts.
Variable after_profile_request : string -> list event * Z.

Lemma main_rejects orcid :
  re_match orcid_pattern orcid = false ->
  main after_profile_request orcid
  = ([PrintErr "Invalid ORCID format. Expected: XXXX-XXXX-XXXX-XXXX"], 1).
Proof. unfold main. by intros ->. Qed.

Lemma main_proceeds orcid :
  re_match orcid_pattern orcid = true ->
  main after_profile_request orcid
  = (Print ("Retrieving publications for ORCID: " +:+ orcid)
       :: HttpGet ("https://pub.orcid.org/v3.0/" +:+ orcid)
       :: (after_profile_request orcid).1,
     (after_profile_request orcid).2).
Proof.
  unfold main. intros ->. simpl. by destruct (after_profile_request orcid).
Qed.
End MainFacts.

(** C8 fails on the code: [$] also matches before a final newline, so an
    identifier of the right form followed by a newline, which is not of
    the form the check is meant to require, passes it, and [main] goes on
    to its first request. *)
Theorem main_accepts_trailing_newline
    (after_profile_request : string -> list event * Z) :
  structurally_valid_orcid orcid_with_newline = false /\
  re_match orcid_pattern orcid_with_newline = true /\
  exists evs status,
    main after_profile_request orcid_with_newline
    = (Print ("Retrieving publications for ORCID: " +:+ orcid_with_newline)
         :: HttpGet ("https://pub.orcid.org/v3.0/" +:+ orcid_with_newline)
         :: evs, status).
Proof.
  split; [reflexivity |]. split; [reflexivity |].
  rewrite main_proceeds by reflexivity. eauto.
Qed.

Example main_valid_and_invalid (rest : string -> list event * Z) :
  structurally_valid_orcid "0000-0002-1825-0097" = true /\
  structurally_valid_orcid "0000-0002-1694-233X" = true /\
  re_match orcid_pattern "0000-0002-1694-233X" = true /\
  main rest "0000-0002-1825-009"
  = ([PrintErr "Invalid ORCID format. Expected: XXXX-XXXX-XXXX-XXXX"], 1) /\
  main rest "0000_0002_1825_0097"
  = ([PrintErr "Invalid ORCID format. Expected: XXXX-XXXX-XXXX-XXXX"], 1).
Proof. repeat split. Qed.

(** * Further properties *)

(** ** Equality and hash of records *)

(** X1: [__eq__] never raises, whatever DOIs are missing, and it is
    reflexive and symmetric. *)
Theorem Publication_eq_total_refl_sym a b :
  (exists v, Publication_eq a b = Ok v) /\
  Publication_eq a a = Ok true /\
  Publication_eq a b = Publication_eq b a.
Proof.
  unfold Publication_eq. repeat split.
  - destruct (doi a) as [[|c s]|], (doi b) as [[|c' s']|]; simpl; eauto.
  - destruct (doi a) as [[|c s]|]; simpl;
      by rewrite ?bool_decide_eq_true_2.
  - destruct (doi a) as [[|c s]|], (doi b) as [[|c' s']|]; simpl;
      f_equal; try (apply bool_decide_ext; split; congruence);
      f_equal; apply bool_decide_ext; split; congruence.
Qed.

Lemma Publication_eq_true_both a b :
  truthy_str (doi a) = true -> truthy_str (doi b) = true ->
  (Publication_eq a b = Ok true <-> attr_lower (doi a) = attr_lower (doi b)).
Proof.
  unfold Publication_eq. intros Ha Hb. rewrite Ha, Hb. simpl.
  destruct (truthy_str_Some _ Ha) as [da ->].
  destruct (truthy_str_Some _ Hb) as [db ->]. simpl.
  split.
  - intros [= H]. apply bool_decide_eq_true in H. by rewrite H.
  - intros [= H]. rewrite H. by rewrite bool_decide_eq_true_2.
Qed.

Lemma Publication_eq_true_fallback a b :
  truthy_str (doi a) && truthy_str (doi b) = false ->
  (Publication_eq a b = Ok true <->
   lower (title a) = lower (title b) /\ year a = year b).
Proof.
  unfold Publication_eq. intros ->. split.
  - intros [= H]. apply andb_true_iff in H as [H1 H2].
    by apply bool_decide_eq_true in H1, H2.
  - intros [H1 H2]. by rewrite !bool_decide_eq_true_2.
Qed.

(** X2: for two records that both have a DOI, or both have none,
    [__eq__] holds exactly when [merge_publications] gives them the same
    key, and exactly when [__hash__] hashes the same value. *)
Theorem Publication_eq_iff_same_key a b :
  truthy_str (doi a) = truthy_str (doi b) ->
  (Publication_eq a b = Ok true <-> identity_key a = identity_key b) /\
  (Publication_eq a b = Ok true <->
   Publication_hash_arg a = Publication_hash_arg b).
Proof.
  intros Hd. destruct (truthy_str (doi a)) eqn:Ha; symmetry in Hd.
  - rewrite (Publication_eq_true_both a b Ha Hd).
    unfold identity_key, Publication_hash_arg. rewrite Ha, Hd.
    destruct (truthy_str_Some _ Ha) as [da ->].
    destruct (truthy_str_Some _ Hd) as [db ->]. simpl.
    split; [done |]. split; [by intros [= ->] | by intros [= ->]].
  - rewrite (Publication_eq_true_fallback a b) by (by rewrite Ha).
    unfold identity_key, Publication_hash_arg. rewrite Ha, Hd. split.
    + split; [by intros [-> ->] |]. intros [= H]. by apply fallback_key_inj in H.
    + split; [by intros [-> ->] | by intros [= -> ->]].
Qed.

Lemma Publication_eq_iff_same_key_witness :
  (Publication_eq pubA pubB = Ok true
   <-> identity_key pubA = identity_key pubB) /\
  (Publication_eq pubA pubB = Ok true <->
   Publication_hash_arg pubA = Publication_hash_arg pubB).
Proof. apply (Publication_eq_iff_same_key pubA pubB). reflexivity. Defined.

(** X3: the contract between [__eq__] and [__hash__] is broken when
    exactly one record has a DOI: with equal lowercased title and equal
    year the two records are equal, yet one is hashed through its DOI
    and the other through title and year; and [merge_publications]
    merges them only if the DOI happens to read as the other's key. *)
Theorem Publication_eq_without_equal_hash a b :
  truthy_str (doi a) = true -> truthy_str (doi b) = false ->
  lower (title a) = lower (title b) -> year a = year b ->
  Publication_eq a b = Ok true /\
  Publication_hash_arg a <> Publication_hash_arg b /\
  (identity_key a = identity_key b <->
   attr_lower (doi a) = Ok (fallback_key b)).
Proof.
  intros Ha Hb Ht Hy. split; [| split].
  - apply Publication_eq_true_fallback; [by rewrite Ha, Hb | done].
  - unfold Publication_hash_arg. rewrite Ha, Hb.
    destruct (truthy_str_Some _ Ha) as [da ->]. simpl. discriminate.
  - unfold identity_key, fallback_key. by rewrite Ha, Hb.
Qed.

Lemma Publication_eq_without_equal_hash_witness :
  Publication_eq pubA pubA_no_doi = Ok true /\
  Publication_hash_arg pubA <> Publication_hash_arg pubA_no_doi /\
  (identity_key pubA = identity_key pubA_no_doi <->
   attr_lower (doi pubA) = Ok (fallback_key pubA_no_doi)).
Proof.
  apply (Publication_eq_without_equal_hash pubA pubA_no_doi); reflexivity.
Defined.

(** ** Sorting, again *)

Section ListSortIdempotent.
Context {A K : Type} (le : K -> K -> bool) (key : A -> K).

Lemma list_sort_sorted_id r l :
  StronglySorted (fun a b => goes_before le key r a b = true) l ->
  list_sort le key r l = l.
Proof.
  induction 1 as [|x l HS IH HF]; [done |].
  simpl. fold (list_sort le key r l). rewrite IH.
  destruct l as [|y l]; [done |]. simpl.
  apply Forall_cons in HF as [-> _]. done.
Qed.
End ListSortIdempotent.

(** X4: the sort step is idempotent: sorting a sorted list again, by
    the same key in the same direction, changes nothing; and it keeps
    the number of records.  A sort key other than the three leaves the
    list as it is. *)
Theorem sort_publications_idempotent sort reverse l :
  sort_publications sort reverse (sort_publications sort reverse l)
  = sort_publications sort reverse l /\
  length (sort_publications sort reverse l) = length l.
Proof.
  unfold sort_publications.
  repeat case_bool_decide; split; try done;
    try (apply list_sort_sorted_id;
         first [ apply (list_sort_sorted Z.leb _ Zleb_total Zleb_trans)
               | apply (list_sort_sorted String.leb _ String.leb_total
                          String_leb_trans) ]);
    first [ apply (Permutation_length (list_sort_perm Z.leb _ _ _))
          | apply (Permutation_length (list_sort_perm String.leb _ _ _)) ].
Qed.

(** ** Citation strings *)

(** X5: without a journal, [format_citation] shows neither volume nor
    issue nor pages: the citation is the same whatever these fields
    hold. *)
Theorem format_citation_details_need_journal pub v i p :
  truthy_str (journal pub) = false ->
  format_citation (set_volume v (set_issue i (set_pages p pub)))
  = format_citation pub.
Proof. unfold format_citation. simpl. by intros ->. Qed.

Lemma format_citation_details_need_journal_witness :
  format_citation
    (set_volume (Some "12") (set_issue (Some "3") (set_pages (Some "1-9") pubA)))
  = format_citation pubA.
Proof.
  apply (format_citation_details_need_journal pubA). reflexivity.
Defined.

Lemma append_assoc s t u : (s +:+ t) +:+ u = s +:+ (t +:+ u).
Proof.
  induction s as [|c s IH]; cbv [String.append]; fold String.append; [done |].
  by rewrite IH.
Qed.

(** X6: with three authors or more, only the first is shown: the
    citation begins with the first author and " et al.", and does not
    depend on the other authors. *)
Theorem format_citation_et_al pub a b c l b' c' l' :
  format_citation (set_authors (a :: b :: c :: l) pub)
  = format_citation (set_authors (a :: b' :: c' :: l') pub) /\
  exists rest,
    format_citation (set_authors (a :: b :: c :: l) pub)
    = a +:+ " et al." +:+ rest.
Proof.
  split; [reflexivity |]. unfold format_citation. simpl.
  eexists. by rewrite append_assoc.
Qed.

(** ** BibTeX output *)

Lemma split_go_nil s : forall cur,
  split_go cur s = [] <-> cur = "" /\ blank s = true.
Proof.
  unfold blank. induction s as [|c s IH]; intros cur; simpl.
  - case_bool_decide; split; try done; intros [? _]; done.
  - destruct (is_space c); simpl.
    + case_bool_decide as Hc.
      * rewrite IH. subst. tauto.
      * split; [done | intros [? _]; done].
    + rewrite IH. split; [| intros [_ ?]; done].
      intros [H _]. by destruct cur.
Qed.

Lemma split_nil s : split s = [] <-> blank s = true.
Proof. unfold split. rewrite split_go_nil. tauto. Qed.

Lemma bibtex_first_author_outcome pub :
  if first_author_ok pub
  then exists w, bibtex_first_author pub = Done w
  else bibtex_first_author pub = Raised IndexError.
Proof.
  unfold first_author_ok, bibtex_first_author, last_item.
  destruct (authors pub) as [|a l]; [simpl; eauto |].
  cbn [truthy_list andb length].
  rewrite bool_decide_eq_true_2 by lia.
  destruct (blank a) eqn:Hb; cbn [negb].
  - apply split_nil in Hb. by rewrite Hb.
  - destruct (last (split a)) as [w|] eqn:Hl; [eauto |].
    apply last_None in Hl. apply split_nil in Hl. congruence.
Qed.

Lemma bibtex_entry_outcome i pub :
  if first_author_ok pub
  then exists e, bibtex_entry i pub = Done e /\ is_bibtex_entry pub e
  else bibtex_entry i pub = Raised IndexError.
Proof.
  pose proof (bibtex_first_author_outcome pub) as H.
  unfold bibtex_entry. destruct (first_author_ok pub).
  - destruct H as [w ->]. eexists. split; [reflexivity |].
    exists ("@" +:+ bibtex_entry_type pub +:+ "{"
              +:+ bibtex_citation_key w pub i +:+ "," +:+ nl).
    eexists (bibtex_field (truthy_list (authors pub)) "author"
               (join " and " (authors pub))
             ++ ("  title = {" +:+ title pub +:+ "}," +:+ nl)
             :: (bibtex_field (truthy_int (year pub)) "year"
                   (str_opt_int (year pub))
                 ++ bibtex_field (truthy_str (journal pub))
                      (if bool_decide (bibtex_entry_type pub = "article")
                       then "journal" else "booktitle")
                      (str_opt_str (journal pub))
                 ++ bibtex_field (truthy_str (volume pub)) "volume"
                      (str_opt_str (volume pub))
                 ++ bibtex_field (truthy_str (issue pub)) "number"
                      (str_opt_str (issue pub))
                 ++ bibtex_field (truthy_str (pages pub)) "pages"
                      (str_opt_str (pages pub))
                 ++ bibtex_field (truthy_str (publisher pub)) "publisher"
                      (str_opt_str (publisher pub))
                 ++ bibtex_field (truthy_str (doi pub)) "doi"
                      (str_opt_str (doi pub))
                 ++ bibtex_field (truthy_str (url pub)) "url"
                      (str_opt_str (url pub)))).
    split; [| split].
    + cbn [app]. f_equal. rewrite <- !app_assoc. cbn [app].
      by rewrite <- !app_assoc.
    + cbv [String.append]. fold String.append. simpl.
      by destruct (bibtex_entry_type pub +:+ _).
    + apply elem_of_app. right. apply elem_of_cons. by left.
  - by rewrite H.
Qed.

Lemma bibtex_write_acc pubs : forall i file,
  bibtex_write i pubs file
  = (file ++ (bibtex_write i pubs []).1, (bibtex_write i pubs []).2).
Proof.
  induction pubs as [|pub pubs IH]; intros i file; simpl.
  - by rewrite app_nil_r.
  - destruct (bibtex_entry i pub) as [chunks|e]; simpl.
    + rewrite (IH _ (file ++ chunks)), (IH _ chunks). simpl.
      by rewrite app_assoc.
    + by rewrite app_nil_r.
Qed.

Lemma bibtex_write_ok pubs : forall i,
  forallb first_author_ok pubs = true ->
  exists entries,
    bibtex_write i pubs [] = (concat entries, Done tt) /\
    Forall2 is_bibtex_entry pubs entries.
Proof.
  induction pubs as [|pub pubs IH]; intros i H; simpl.
  - exists []. auto.
  - simpl in H. apply andb_true_iff in H as [H1 H2].
    pose proof (bibtex_entry_outcome i pub) as He. rewrite H1 in He.
    destruct He as (e & -> & He). destruct (IH (S i) H2) as (es & Hes & HF).
    exists (e :: es). rewrite bibtex_write_acc, Hes. simpl.
    split; [done | by constructor].
Qed.

(** X7: [save_to_bibtex] raises [IndexError] exactly when some record
    has authors of which the first is empty or all white space (its
    [split()] has no last word); otherwise it succeeds. *)
Theorem save_to_bibtex_outcome pubs :
  (save_to_bibtex pubs).2
  = if forallb first_author_ok pubs then Done tt else Raised IndexError.
Proof.
  unfold save_to_bibtex. generalize 0%nat.
  induction pubs as [|pub pubs IH]; intros i; simpl; [done |].
  pose proof (bibtex_entry_outcome i pub) as He.
  destruct (first_author_ok pub); simpl.
  - destruct He as (e & -> & _). rewrite bibtex_write_acc. simpl. apply IH.
  - by rewrite He.
Qed.

(** X8: when every first author has a word, the file is one entry per
    record, in order: an opening line with [@], the lines of the fields,
    the title always among them, and a closing line. *)
Theorem save_to_bibtex_entries pubs :
  forallb first_author_ok pubs = true ->
  exists entries,
    save_to_bibtex pubs = (concat entries, Done tt) /\
    length entries = length pubs /\
    Forall2 is_bibtex_entry pubs entries.
Proof.
  intros H. destruct (bibtex_write_ok pubs 0%nat H) as (es & Hes & HF).
  exists es. split; [done |]. split; [| done].
  symmetry. by eapply Forall2_length.
Qed.

Lemma save_to_bibtex_entries_witness :
  exists entries,
    save_to_bibtex [pubA; with_journal (Some "J") "s"] = (concat entries, Done tt) /\
    length entries = length [pubA; with_journal (Some "J") "s"] /\
    Forall2 is_bibtex_entry [pubA; with_journal (Some "J") "s"] entries.
Proof.
  apply (save_to_bibtex_entries [pubA; with_journal (Some "J") "s"]).
  reflexivity.
Defined.

(** X9: at the first record whose first author has no word the run
    stops with [IndexError]; the file then holds the entries of the
    records before it and nothing of that record or the later ones. *)
Theorem save_to_bibtex_stops pre bad post :
  forallb first_author_ok pre = true -> first_author_ok bad = false ->
  save_to_bibtex (pre ++ bad :: post)
  = ((save_to_bibtex pre).1, Raised IndexError).
Proof.
  unfold save_to_bibtex. generalize 0%nat.
  induction pre as [|pub pre IH]; intros i Hpre Hbad; simpl.
  - pose proof (bibtex_entry_outcome i bad) as He. rewrite Hbad in He.
    by rewrite He.
  - simpl in Hpre. apply andb_true_iff in Hpre as [H1 H2].
    pose proof (bibtex_entry_outcome i pub) as He. rewrite H1 in He.
    destruct He as (e & -> & _).
    rewrite bibtex_write_acc, (IH _ H2 Hbad).
    by rewrite (bibtex_write_acc pre (S i) e).
Qed.

Lemma save_to_bibtex_stops_witness :
  save_to_bibtex ([pubA] ++ set_authors [" "] pubB :: [pubA])
  = ((save_to_bibtex [pubA]).1, Raised IndexError).
Proof.
  apply (save_to_bibtex_stops [pubA] (set_authors [" "] pubB) [pubA]);
    reflexivity.
Defined.

(** X10: with the same first author and the same year, records at
    different positions get different citation keys. *)
Theorem bibtex_citation_key_positions first_author pub pub' i j :
  year pub = year pub' ->
  bibtex_citation_key first_author pub i
  = bibtex_citation_key first_author pub' j ->
  i = j.
Proof.
  unfold bibtex_citation_key. intros -> H.
  apply (inj (String.app first_author)) in H.
  apply (inj (String.app (str_opt_int (year pub')))) in H.
  apply str_int_inj in H. lia.
Qed.

Lemma bibtex_citation_key_positions_witness :
  year pubA = year pubB /\
  bibtex_citation_key "smith" pubA 3 = bibtex_citation_key "smith" pubB 3 /\
  3%nat = 3%nat.
Proof.
  split; [reflexivity |]. split; [reflexivity |].
  apply (bibtex_citation_key_positions "smith" pubA pubB 3 3); reflexivity.
Defined.

(** X11: the entry type is one of five, and it is [article] for a
    record without a type. *)
Theorem bibtex_entry_type_cases pub :
  bibtex_entry_type pub
    ∈ ["article"; "inproceedings"; "book"; "phdthesis"; "mastersthesis"] /\
  (truthy_str (type pub) = false -> bibtex_entry_type pub = "article").
Proof.
  unfold bibtex_entry_type. split; [| by intros ->].
  repeat match goal with
         | |- context [if ?b then _ else _] => destruct b
         end;
    repeat first [ by apply list_elem_of_here | apply list_elem_of_further ].
Qed.

(** ** The abstract of OpenAlex *)

Lemma pos_word_le_total a b : pos_word_le a b = true \/ pos_word_le b a = true.
Proof.
  unfold pos_word_le. destruct (Z.lt_trichotomy a.1 b.1) as [H | [H | H]].
  - left. apply orb_true_iff. left. by apply Z.ltb_lt.
  - rewrite H, Z.eqb_refl, Z.ltb_irrefl. simpl. apply String.leb_total.
  - right. apply orb_true_iff. left. by apply Z.ltb_lt.
Qed.

Lemma pos_word_le_cases a b :
  pos_word_le a b = true <->
  a.1 < b.1 \/ (a.1 = b.1 /\ String.leb a.2 b.2 = true).
Proof.
  unfold pos_word_le.
  rewrite orb_true_iff, andb_true_iff, Z.ltb_lt, Z.eqb_eq. tauto.
Qed.

Lemma pos_word_le_trans a b c :
  pos_word_le a b = true -> pos_word_le b c = true -> pos_word_le a c = true.
Proof.
  rewrite !pos_word_le_cases.
  intros [H1 | [H1 L1]] [H2 | [H2 L2]]; try (left; lia).
  right. split; [lia |]. by apply String_leb_trans with b.2.
Qed.

Lemma pos_word_le_antisym a b :
  pos_word_le a b = true -> pos_word_le b a = true -> a = b.
Proof.
  rewrite !pos_word_le_cases.
  intros [H1 | [H1 L1]] [H2 | [H2 L2]]; try lia.
  destruct a as [p w], b as [q v]. simpl in *. subst. f_equal.
  by apply String.leb_antisym.
Qed.

Lemma with_positions_sorted ws : forall i,
  StronglySorted (fun a b => goes_before pos_word_le id false a b = true)
                 (with_positions i ws).
Proof.
  induction ws as [|w ws IH]; intros i; simpl; constructor; [apply IH |].
  assert (H : forall j, (i < j)%nat ->
            Forall (fun b => goes_before pos_word_le id false
                               (Z.of_nat i, w) b = true)
                   (with_positions j ws)).
  { clear IH. induction ws as [|v ws IH]; intros j Hj; simpl; constructor.
    - unfold goes_before, id. apply pos_word_le_cases. left. simpl. lia.
    - apply IH. lia. }
  apply H. lia.
Qed.

Lemma with_positions_words ws : forall i, map snd (with_positions i ws) = ws.
Proof. induction ws as [|w ws IH]; intros i; simpl; [done | by rewrite IH]. Qed.

(** X12: the abstract is rebuilt from the inverted index: when the
    index is not empty and lists each position of the words [ws] once,
    under the word at that position, the abstract is the words of [ws]
    joined by spaces, whatever the order of the keys and of the
    positions in the index. *)
Theorem openalex_abstract_round_trip idx ws :
  idx <> [] -> openalex_positions idx ≡ₚ with_positions 0 ws ->
  openalex_abstract (Some idx) = Some (join " " ws).
Proof.
  intros Hne HP. unfold openalex_abstract. destruct idx as [|e idx]; [done |].
  f_equal. f_equal. rewrite <- (with_positions_words ws 0). f_equal.
  pose (R := fun a b : Z * string =>
               goes_before pos_word_le id false a b = true).
  assert (HA : AntiSymm (=) R).
  { intros a b. apply pos_word_le_antisym. }
  apply (StronglySorted_unique R).
  - apply (list_sort_sorted pos_word_le id pos_word_le_total pos_word_le_trans).
  - apply with_positions_sorted.
  - by rewrite list_sort_perm.
Qed.

Lemma openalex_abstract_round_trip_witness :
  openalex_abstract (Some [("cat", [1]); ("the", [0])])
  = Some (join " " ["the"; "cat"]).
Proof.
  apply openalex_abstract_round_trip; [discriminate | apply perm_swap].
Defined.

Example openalex_abstract_repeated_words :
  openalex_abstract (Some [("cat", [1; 4]); ("sat", [2]); ("the", [3; 0])])
  = Some "the cat sat the cat".
Proof. reflexivity. Qed.

(** Without an index, and with an empty one, there is no abstract; an
    index whose words have no position gives the empty abstract. *)
Example openalex_abstract_edges :
  openalex_abstract None = None /\ openalex_abstract (Some []) = None /\
  openalex_abstract (Some [("a", []); ("b", [])]) = Some "".
Proof. repeat split. Qed.

(** ** The end of [main] *)

Lemma remove_char_removes c s : ~ string_has c (remove_char c s).
Proof.
  unfold string_has. induction s as [|a s IH]; simpl; [by intros H; inversion H |].
  case_bool_decide as Ha; [done |]. simpl.
  rewrite elem_of_cons. intros [-> | H]; [done | by apply IH].
Qed.

Lemma digit_not_hyphen a : is_digit a = true -> bool_decide (a = "-"%char) = false.
Proof. intros H. apply bool_decide_eq_false_2. intros ->. discriminate. Qed.

Lemma remove_hyphens_valid_orcid s :
  structurally_valid_orcid s = true ->
  String.length (remove_char "-"%char s) = 16%nat.
Proof.
  unfold structurally_valid_orcid. intros H.
  do 19 (destruct s as [|? s]; [discriminate |]).
  destruct s; [| discriminate].
  unfold orcid_group, orcid_last_group in H. simpl in H.
  repeat match type of H with
  | _ && _ = true => apply andb_true_iff in H as [H ?]
  end.
  repeat match goal with
  | E : _ && _ = true |- _ => apply andb_true_iff in E as [? ?]
  | E : bool_decide (_ = "-"%char) = true |- _ =>
      apply bool_decide_eq_true in E; subst
  end.
  assert (Hl : bool_decide (a17 = "-"%char) = false).
  { apply bool_decide_eq_false_2. intros ->.
    match goal with E : is_digit "-" || _ = true |- _ => discriminate E end. }
  cbn [remove_char].
  rewrite !(bool_decide_eq_true_2 ("-"%char = "-"%char)) by done.
  rewrite Hl.
  repeat match goal with
         | E : is_digit ?c = true |- _ =>
             rewrite (digit_not_hyphen c E); clear E
         end.
  reflexivity.
Qed.

(** X13: without a file argument, the output goes to a file named
    after the identifier without its hyphens: for a well-formed
    identifier the name is "publications_", sixteen characters with no
    hyphen among them, and the extension of the format, ".txt" for every
    format that is not json, csv or bibtex. *)
Theorem output_file_default a :
  truthy_str (args_file a) = false ->
  structurally_valid_orcid (args_orcid a) = true ->
  exists id ext,
    output_file a = "publications_" +:+ id +:+ ext /\
    String.length id = 16%nat /\ ~ string_has "-"%char id /\
    ext = (if bool_decide (output_format a = "json") then ".json"
           else if bool_decide (output_format a = "csv") then ".csv"
           else if bool_decide (output_format a = "bibtex") then ".bib"
           else ".txt").
Proof.
  intros Hf Hv. exists (remove_char "-"%char (args_orcid a)). eexists.
  split; [| split; [by apply remove_hyphens_valid_orcid |
                    split; [apply remove_char_removes | reflexivity]]].
  unfold output_file. rewrite Hf.
  repeat case_bool_decide; by rewrite append_assoc.
Qed.

Lemma output_file_default_witness :
  exists id ext,
    output_file (mkArgs "0000-0002-1825-0097" (Some "json") None None false)
    = "publications_" +:+ id +:+ ext /\
    String.length id = 16%nat /\ ~ string_has "-"%char id /\
    ext = ".json".
Proof.
  apply (output_file_default
           (mkArgs "0000-0002-1825-0097" (Some "json") None None false));
    reflexivity.
Defined.

Lemma sort_publications_perm sort reverse l :
  sort_publications sort reverse l ≡ₚ l.
Proof.
  unfold sort_publications.
  repeat case_bool_decide; try done;
    first [ apply (list_sort_perm Z.leb) | apply (list_sort_perm String.leb) ].
Qed.

Lemma reconcile_nonempty x xs :
  exists r out, reconcile (x :: xs) = Ok (r :: out).
Proof.
  destruct (reconcile_returns (x :: xs)) as (out & Hr & _).
  pose proof (reconcile_keys _ _ Hr) as Hk. simpl in Hk.
  destruct out as [|r out]; [discriminate | eauto].
Qed.

(** X14: with the csv format, [main] ends in [ValueError] as soon as the
    services gave one record: the file is left with the header alone
    and "Results saved" is not printed. *)
Theorem main_finish_csv_raises a x xs :
  output_format a = "csv" ->
  exists count,
    main_finish a (x :: xs)
    = ([Say "Merging and deduplicating results..."; Say count;
        WriteFile (output_file a) (CsvFile [map VStr fieldnames])],
       Raised (Exn ValueError)).
Proof.
  intros Hf. unfold main_finish.
  destruct (reconcile_nonempty x xs) as (r & out & ->).
  destruct (sort_publications (args_sort a) (args_reverse a) (r :: out))
    as [|p ps] eqn:Hs.
  { pose proof (sort_publications_perm (args_sort a) (args_reverse a) (r :: out))
      as HP. rewrite Hs in HP. by apply Permutation_nil_l in HP. }
  unfold output_results. rewrite Hf. simpl. eauto.
Qed.

Lemma main_finish_csv_raises_witness :
  exists count,
    main_finish (mkArgs "0000-0002-1825-0097" (Some "csv") None None false)
                (pubA :: [pubB])
    = ([Say "Merging and deduplicating results..."; Say count;
        WriteFile "publications_0000000218250097.csv"
                  (CsvFile [map VStr fieldnames])],
       Raised (Exn ValueError)).
Proof.
  apply (main_finish_csv_raises
           (mkArgs "0000-0002-1825-0097" (Some "csv") None None false)
           pubA [pubB]).
  reflexivity.
Defined.



Lemma numbered_citations_lookup pubs : forall i k pub,
  pubs !! k = Some pub ->
  numbered_citations i pubs !! k
  = Some (str_int (Z.of_nat (i + k)) +:+ ". " +:+ format_citation pub).
Proof.
  induction pubs as [|p pubs IH]; intros i k pub; [done |].
  destruct k as [|k]; simpl.
  - intros [= ->]. by rewrite Nat.add_0_r.
  - intros H. rewrite (IH (S i) k pub H). do 3 f_equal. lia.
Qed.

Lemma say_lines_lookup (lines : list string) : forall k line,
  lines !! k = Some line ->
  flat_map (fun line => [Say line; Say ""]) lines !! (2 * k)%nat = Some (Say line)
  /\ flat_map (fun line => [Say line; Say ""]) lines !! (2 * k + 1)%nat
     = Some (Say "").
Proof.
  induction lines as [|l lines IH]; intros k line; [done |].
  destruct k as [|k]; simpl.
  - by intros [= ->].
  - intros H. destruct (IH k line H) as [H1 H2].
    replace (k + S (k + 0))%nat with (S (2 * k)) by lia. simpl.
    split; [done |]. by replace (k + (k + 0) + 1)%nat with (2 * k + 1)%nat by lia.
Qed.

Lemma say_lines_length (lines : list string) :
  length (flat_map (fun line => [Say line; Say ""]) lines)
  = (2 * length lines)%nat.
Proof. induction lines as [|l lines IH]; simpl; [done |]. rewrite IH. lia. Qed.

Lemma numbered_citations_length pubs : forall i,
  length (numbered_citations i pubs) = length pubs.
Proof. induction pubs as [|p pubs IH]; intros i; simpl; [done | by rewrite IH]. Qed.

(** X16: the text output on the standard output numbers the records
    from 1 in their sorted order: for the record at position [k] it
    prints the line with the number [k + 1] and the citation, then an
    empty line, and nothing else. *)
Theorem output_results_stdout a pubs :
  output_format a = "text" -> args_file a = Some "stdout" ->
  exists acts,
    output_results a pubs = (acts, Done tt) /\
    length acts = (2 * length pubs)%nat /\
    forall k pub, pubs !! k = Some pub ->
      acts !! (2 * k)%nat
      = Some (Say (str_int (Z.of_nat (k + 1)) +:+ ". " +:+ format_citation pub))
      /\ acts !! (2 * k + 1)%nat = Some (Say "").
Proof.
  intros Hf Hfile. unfold output_results, output_file. rewrite Hf, Hfile. simpl.
  eexists. split; [reflexivity |]. split.
  - by rewrite say_lines_length, numbered_citations_length.
  - intros k pub Hk. apply say_lines_lookup.
    rewrite (numbered_citations_lookup pubs 1 k pub Hk). do 3 f_equal. lia.
Qed.

Lemma output_results_stdout_witness :
  exists acts,
    output_results (mkArgs "0000-0002-1825-0097" (Some "text") (Some "stdout")
                           None false) [pubA; pubB]
    = (acts, Done tt) /\
    length acts = (2 * length [pubA; pubB])%nat /\
    forall k pub, [pubA; pubB] !! k = Some pub ->
      acts !! (2 * k)%nat
      = Some (Say (str_int (Z.of_nat (k + 1)) +:+ ". " +:+ format_citation pub))
      /\ acts !! (2 * k + 1)%nat = Some (Say "").
Proof.
  apply (output_results_stdout
           (mkArgs "0000-0002-1825-0097" (Some "text") (Some "stdout")
                   None false) [pubA; pubB]);
    reflexivity.
Defined.

(** ** What the surviving record holds *)

Section MergeFold.
Context {A : Type} (get : Publication -> A) (c : A -> A -> A).
Hypothesis get_merge : forall x y, get (merge_record x y) = c (get x) (get y).

Lemma later_values_cons (h : heap) k p o rest :
  h !! p = Some o ->
  later_values get h k (p :: rest)
  = if bool_decide (key_of o = k) then get o :: later_values get h k rest
    else later_values get h k rest.
Proof.
  intros Hp. unfold later_values.
  change (omap ?f (p :: rest)) with
    (from_option (fun v => v :: omap f rest) (omap f rest) (f p)).
  cbv beta. rewrite Hp. by case_bool_decide.
Qed.

Lemma later_values_insert (h : heap) k e y refs :
  e ∉ refs ->
  later_values get (<[e := y]> h) k refs = later_values get h k refs.
Proof.
  intros He. unfold later_values. apply list_omap_ext.
  apply Forall_Forall2_diag, Forall_forall. intros p Hp.
  rewrite list_lookup_insert_ne; [done |]. by intros ->.
Qed.

Lemma merge_loop_fold refs : forall (merged : dict) (h : heap),
  dict_ok h merged -> Forall (fun a => a < length h)%nat refs ->
  NoDup refs -> (forall a, a ∈ merged.*2 -> a ∉ refs) ->
  exists h',
    merge_loop refs merged h
      = Ok (merged ++ first_seen h (merged.*1) refs, h') /\
    (forall k a o, (k, a) ∈ merged -> h !! a = Some o ->
       exists o', h' !! a = Some o' /\
         get o' = fold_left c (later_values get h k refs) (get o)) /\
    (forall k a, (k, a) ∈ first_seen h (merged.*1) refs ->
       exists o' v vs, h' !! a = Some o' /\
         later_values get h k refs = v :: vs /\ get o' = fold_left c vs v).
Proof.
  induction refs as [|p rest IH]; intros merged h Hok Hv ND Hdis.
  - exists h. simpl. rewrite app_nil_r. split; [done |]. split.
    + intros k a o _ Ho. by exists o.
    + intros k a H. inversion H.
  - apply Forall_cons in Hv as [Hp Hv].
    apply lookup_lt_is_Some_2 in Hp as [op Hp].
    apply NoDup_cons in ND as [Hpr ND].
    destruct (dict_get (key_of op) merged) as [e|] eqn:Hk.
    + pose proof (dict_get_Some _ _ _ Hk) as Hin.
      destruct (proj2 Hok _ _ Hin) as (x & He & Hkx).
      assert (Hem : e ∈ merged.*2).
      { apply list_elem_of_fmap. by exists (key_of op, e). }
      assert (Her : e ∉ rest).
      { intros H. apply (Hdis e Hem). by right. }
      rewrite (merge_loop_dup h p op e x) by done.
      pose proof (same_ids_merge h e x op He) as Hs1.
      destruct (IH merged (<[e := merge_record x op]> h)) as (h' & Hrun & H1 & H2).
      { by apply dict_ok_merge. }
      { by rewrite length_insert. }
      { done. }
      { intros a Ha Har. apply (Hdis a Ha). by right. }
      rewrite (first_seen_ext h) in Hrun, H2
        by (intros; by apply same_ids_key_at).
      assert (Hfs : first_seen h (merged.*1) (p :: rest)
                    = first_seen h (merged.*1) rest).
      { simpl. rewrite Hp. rewrite bool_decide_eq_true_2; [done |].
        apply list_elem_of_fmap. by exists (key_of op, e). }
      exists h'. rewrite Hfs. split; [done |]. split.
      * intros k a o Hka Ho. rewrite (later_values_cons h k p op) by done.
        destruct (decide (a = e)) as [-> | Hae].
        -- assert (o = x) as -> by congruence.
           assert (k = key_of op) as ->.
           { destruct (proj2 Hok _ _ Hka) as (x' & Hx' & <-). congruence. }
           rewrite bool_decide_eq_true_2 by done.
           destruct (H1 (key_of op) e (merge_record x op) Hka) as (o' & Ho' & Hg).
           { apply list_lookup_insert_eq. eauto using lookup_lt_Some. }
           exists o'. split; [done |].
           rewrite Hg, later_values_insert, get_merge by done. done.
        -- assert (Hkk : key_of op <> k).
           { intros <-. apply Hae. by eapply dict_unique; [apply Hok | |]. }
           rewrite bool_decide_eq_false_2 by done.
           destruct (H1 k a o Hka) as (o' & Ho' & Hg).
           { by rewrite list_lookup_insert_ne. }
           exists o'. split; [done |]. by rewrite Hg, later_values_insert.
      * intros k a Hka. destruct (H2 k a Hka) as (o' & v & vs & Ho' & Hl & Hg).
        exists o', v, vs. split; [done |]. split; [| done].
        rewrite (later_values_cons h k p op) by done.
        rewrite later_values_insert in Hl by done.
        rewrite bool_decide_eq_false_2; [done |]. intros <-.
        apply first_seen_not_seen in Hka. apply Hka.
        apply list_elem_of_fmap. by exists (key_of op, e).
    + rewrite (merge_loop_new h p op) by done.
      pose proof Hk as Hkn. apply dict_get_None in Hkn.
      destruct (IH (merged ++ [(key_of op, p)]) h) as (h' & Hrun & H1 & H2).
      { by apply dict_ok_new. }
      { done. }
      { done. }
      { intros a Ha. rewrite fmap_app in Ha. apply elem_of_app in Ha as [Ha | Ha].
        - intros Har. apply (Hdis a Ha). by right.
        - apply list_elem_of_singleton in Ha. simpl in Ha. by subst. }
      assert (Hfs : first_seen h (merged.*1) (p :: rest)
                    = (key_of op, p) :: first_seen h (merged.*1 ++ [key_of op]) rest).
      { simpl. rewrite Hp. by rewrite bool_decide_eq_false_2. }
      rewrite (fmap_app fst), <- app_assoc in Hrun.
      setoid_rewrite (fmap_app fst merged) in H2.
      change ([(key_of op, p)].*1) with [key_of op] in Hrun, H2.
      exists h'. rewrite Hfs. split; [done |]. split.
      * intros k a o Hka Ho. rewrite (later_values_cons h k p op) by done.
        rewrite bool_decide_eq_false_2.
        -- apply H1; [| done]. apply elem_of_app. by left.
        -- intros <-. apply Hkn. apply list_elem_of_fmap. by exists (key_of op, a).
      * intros k a Hka. rewrite (later_values_cons h k p op) by done.
        apply elem_of_cons in Hka as [[= -> ->] | Hka].
        -- rewrite bool_decide_eq_true_2 by done.
           destruct (H1 (key_of op) p op) as (o' & Ho' & Hg); [| done |].
           { apply elem_of_app. right. by apply list_elem_of_singleton. }
           eauto 10.
        -- destruct (H2 k a Hka) as (o' & v & vs & Ho' & Hl & Hg).
           rewrite bool_decide_eq_false_2; [eauto 10 |]. intros <-.
           apply first_seen_not_seen in Hka. apply Hka.
           apply elem_of_app. right. by apply list_elem_of_singleton.
Qed.

Lemma later_values_seq (xs : list Publication) k :
  later_values get xs k (seq 0 (length xs))
  = map get (filter (fun x => key_of x = k) xs).
Proof.
  assert (H : forall pre,
            later_values get (pre ++ xs) k (seq (length pre) (length xs))
            = map get (filter (fun x => key_of x = k) xs)).
  { induction xs as [|x xs IH]; intros pre; [done |].
    cbn [length seq]. rewrite (later_values_cons _ k _ x)
      by (by rewrite list_lookup_middle).
    specialize (IH (pre ++ [x])).
    rewrite length_app, Nat.add_1_r, <- app_assoc in IH. simpl in IH.
    rewrite filter_cons. case_bool_decide as Hk.
    - rewrite decide_True by done. simpl. by rewrite IH.
    - rewrite decide_False by done. by rewrite IH. }
  apply (H []).
Qed.

(** The attribute of each surviving record is the fold, by [c], of the
    attributes of the input records with its key, in input order. *)
Lemma reconcile_fold xs :
  exists out,
    reconcile xs = Ok out /\
    Forall (fun r => exists v vs,
              map get (same_key_as r xs) = v :: vs /\
              get r = fold_left c vs v) out.
Proof.
  destruct (reconcile_spec xs) as (h' & out & Hm & _ & Hr & _ & _ & HF).
  destruct (merge_loop_fold (seq 0 (length xs)) [] xs) as (h2 & Hrun & _ & H2).
  { apply dict_ok_empty. }
  { apply seq_valid. }
  { apply NoDup_seq. }
  { intros a Ha. inversion Ha. }
  simpl in Hrun, H2. fold (entries xs) in Hrun, H2.
  assert (h2 = h') as ->.
  { unfold merge_publications in Hm.
    rewrite (exec_bind_ok _ _ _ _ _ Hrun) in Hm. by injection Hm. }
  exists out. split; [done |].
  assert (Hall : Forall (fun ka => (ka.1, ka.2) ∈ entries xs) (entries xs)).
  { apply Forall_forall. by intros [k a]. }
  clear Hr Hm Hrun. revert Hall HF. generalize (entries xs) at 2 3.
  intros l Hall HF.
  induction HF as [|[k a] r l out [Hr' Hk] _ IH]; [constructor |].
  apply Forall_cons in Hall as [Hka Hall]. constructor; [| by apply IH].
  simpl in *. destruct (H2 k a Hka) as (o' & v & vs & Ho' & Hl & Hg).
  assert (o' = r) as -> by congruence.
  exists v, vs. split; [| done].
  unfold same_key_as. rewrite Hk. by rewrite <- later_values_seq.
Qed.
End MergeFold.

Lemma fold_join_shift sep vs : forall a w,
  fold_left (fun s t => s +:+ sep +:+ t) vs (a +:+ sep +:+ w)
  = a +:+ sep +:+ fold_left (fun s t => s +:+ sep +:+ t) vs w.
Proof.
  induction vs as [|u vs IH]; intros a w; simpl; [done |].
  rewrite <- IH. f_equal. by rewrite !append_assoc.
Qed.

Lemma fold_join sep v vs :
  fold_left (fun s t => s +:+ sep +:+ t) vs v = join sep (v :: vs).
Proof.
  revert v. induction vs as [|w vs IH]; intros v; [done |].
  change (join sep (v :: w :: vs)) with (v +:+ sep +:+ join sep (w :: vs)).
  rewrite <- IH. simpl. apply fold_join_shift.
Qed.

Lemma fold_filled {A} (truthy : A -> bool) vs : forall v,
  fold_left (filled truthy) vs v = default v (find truthy (v :: vs)).
Proof.
  induction vs as [|w vs IH]; intros v; simpl.
  - by destruct (truthy v).
  - rewrite IH. unfold filled. simpl.
    destruct (truthy v) eqn:Hv; simpl; [by rewrite Hv |].
    destruct (truthy w) eqn:Hw; simpl; [by rewrite Hw | by rewrite Hv].
Qed.

Lemma reconcile_fold_filled {A} (get : Publication -> A) truthy xs out :
  (forall x y, get (merge_record x y) = filled truthy (get x) (get y)) ->
  reconcile xs = Ok out ->
  Forall (fun r => first_true_else_first truthy (map get (same_key_as r xs))
                                         (get r)) out.
Proof.
  intros Hg Hr.
  destruct (reconcile_fold get (filled truthy) Hg xs) as (out' & Hr' & HF).
  assert (out' = out) as -> by congruence.
  eapply Forall_impl; [exact HF |]. simpl.
  intros r (v & vs & Hv & Hgr). exists v, vs. split; [done |].
  by rewrite Hgr, fold_filled.
Qed.

(** X17: provenance.  The source label of each surviving record is the
    source labels of all the input records with its key, in input
    order, joined by a comma and a space. *)
Theorem reconcile_source_provenance xs :
  exists out,
    reconcile xs = Ok out /\
    Forall (fun r => source r = join ", " (map source (same_key_as r xs))) out.
Proof.
  destruct (reconcile_fold source (fun s t => s +:+ ", " +:+ t)
              merge_record_source xs) as (out & Hr & HF).
  exists out. split; [done |]. eapply Forall_impl; [exact HF |]. simpl.
  intros r (v & vs & -> & ->). apply fold_join.
Qed.

(** X18: first non-empty value wins.  Each of authors, journal,
    abstract, url, volume, issue, pages, publisher, citations and type
    of a surviving record is the first true value of that field among
    the input records with its key, in input order, or the value of the
    first of these records when none is true. *)
Theorem reconcile_first_true_value xs :
  exists out,
    reconcile xs = Ok out /\
    Forall (fun r =>
      let same := same_key_as r xs in
      first_true_else_first truthy_list (map authors same) (authors r) /\
      first_true_else_first truthy_str (map journal same) (journal r) /\
      first_true_else_first truthy_str (map abstract same) (abstract r) /\
      first_true_else_first truthy_str (map url same) (url r) /\
      first_true_else_first truthy_str (map volume same) (volume r) /\
      first_true_else_first truthy_str (map issue same) (issue r) /\
      first_true_else_first truthy_str (map pages same) (pages r) /\
      first_true_else_first truthy_str (map publisher same) (publisher r) /\
      first_true_else_first truthy_int (map citations same) (citations r) /\
      first_true_else_first truthy_str (map type same) (type r)) out.
Proof.
  destruct (reconcile_returns xs) as (out & Hr & _).
  exists out. split; [done |]. cbv zeta.
  repeat (apply Forall_and; split);
    apply reconcile_fold_filled; auto using merge_record_authors,
      merge_record_journal, merge_record_abstract, merge_record_url,
      merge_record_volume, merge_record_issue, merge_record_pages,
      merge_record_publisher, merge_record_citations, merge_record_type.
Qed.

(** X19: each surviving record is the fold of the merge over the input
    records with its key, in input order, and it has the title, the year
    and the DOI of the first of them. *)
Theorem reconcile_fold_of_merges xs :
  exists out,
    reconcile xs = Ok out /\
    Forall (fun r => exists x rest,
              same_key_as r xs = x :: rest /\
              r = fold_left merge_record rest x /\
              title r = title x /\ year r = year x /\ doi r = doi x) out.
Proof.
  destruct (reconcile_fold id merge_record (fun x y => eq_refl) xs)
    as (out & Hr & HF).
  exists out. split; [done |]. eapply Forall_impl; [exact HF |]. simpl.
  intros r (x & rest & Hs & Hg). rewrite map_id in Hs. unfold id in Hg.
  exists x, rest. split; [done |]. split; [done |].
  rewrite Hg. clear. revert x.
  induction rest as [|y rest IH]; intros x; simpl; [done |].
  destruct (IH (merge_record x y)) as (-> & -> & ->).
  auto using merge_record_title, merge_record_year, merge_record_doi.
Qed.

(** ** [parse_reference] *)

Example parse_reference_sample :
  parse_reference "Aliabadi, A. A., & Norford, L. K. (2018). Effects of roof-edge roughness on air temperature. Boundary-Layer Meteorology, 164(2), 249-279."
  = mkParsedRef
      "Aliabadi, A. A., & Norford, L. K. (2018). Effects of roof-edge roughness on air temperature. Boundary-Layer Meteorology, 164(2), 249-279."
      (Some "2018") "A" "" (Some "249-279").
Proof. vm_compute. reflexivity. Qed.

Example parse_reference_no_final_period :
  parse_reference "Doe (2018). A title. Some Journal (3), 12(2), 1-7"
  = mkParsedRef "Doe (2018). A title. Some Journal (3), 12(2), 1-7"
      (Some "2018") "A title" "Some Journal" None.
Proof. vm_compute. reflexivity. Qed.

Lemma plus_matches_sound c s : forall m rest,
  In (m, rest) (plus_matches c s) ->
  s = m +:+ rest /\ m <> "" /\
  forall a, string_has a m -> re_set_matches c a = true.
Proof.
  induction s as [|a s IH]; intros m rest; simpl; [done |].
  destruct (re_set_matches c a) eqn:Ha; [| done].
  rewrite in_app_iff, in_map_iff. intros [([m' r'] & [= <- <-] & Hin) | [[= <- <-] | []]].
  - destruct (IH _ _ Hin) as (-> & _ & Hall). split; [done |]. split; [done |].
    intros b Hb. unfold string_has in Hb. simpl in Hb.
    apply elem_of_cons in Hb as [-> | Hb]; [done | by apply Hall].
  - split; [done |]. split; [done |]. intros b Hb.
    unfold string_has in Hb. simpl in Hb.
    apply elem_of_cons in Hb as [-> | Hb]; [done | inversion Hb].
Qed.

Lemma matches_set_inv c s m rest :
  In (m, rest) (matches (RSet c) s) ->
  exists a, m = String a "" /\ re_set_matches c a = true /\ s = String a rest.
Proof.
  destruct s as [|a s]; simpl; [done |].
  destruct (re_set_matches c a) eqn:Ha; [| done].
  intros [[= <- <-] | []]. eauto.
Qed.

Lemma matches_seq_inv a b s m rest :
  In (m, rest) (matches (RSeq a b) s) ->
  exists m1 s1 m2,
    In (m1, s1) (matches a s) /\ In (m2, rest) (matches b s1) /\ m = m1 +:+ m2.
Proof.
  simpl. rewrite in_flat_map. intros ([m1 s1] & H1 & H2).
  apply in_map_iff in H2 as ([m2 s2] & [= <- <-] & H2). eauto 10.
Qed.

Lemma matches_sound r : forall s m rest,
  In (m, rest) (matches r s) -> s = m +:+ rest.
Proof.
  induction r as [c | a IHa b IHb | a IHa | c]; intros s m rest H.
  - apply matches_set_inv in H as (x & -> & _ & ->). done.
  - apply matches_seq_inv in H as (m1 & s1 & m2 & H1 & H2 & ->).
    rewrite (IHa _ _ _ H1), (IHb _ _ _ H2). by rewrite append_assoc.
  - simpl in H. apply in_app_iff in H as [H | [[= <- <-] | []]]; [eauto | done].
  - by apply plus_matches_sound in H as [-> _].
Qed.

Lemma head_In {A} (l : list A) x : head l = Some x -> In x l.
Proof. destruct l; [done |]. intros [= ->]. by left. Qed.

(** A group found by a search stands in the text between a match of
    what is before the group and a match of what is after it. *)
Lemma search_group_sound pre grp post s g :
  search_group pre grp post s = Some g ->
  exists before m1 m3 rest,
    s = before +:+ m1 +:+ g +:+ m3 +:+ rest /\
    In (m1, g +:+ m3 +:+ rest) (matches pre (m1 +:+ g +:+ m3 +:+ rest)) /\
    In (g, m3 +:+ rest) (matches grp (g +:+ m3 +:+ rest)) /\
    In (m3, rest) (matches post (m3 +:+ rest)).
Proof.
  assert (Hhere : forall t, match_group pre grp post t = Some g ->
            exists m1 m3 rest,
              t = m1 +:+ g +:+ m3 +:+ rest /\
              In (m1, g +:+ m3 +:+ rest) (matches pre (m1 +:+ g +:+ m3 +:+ rest)) /\
              In (g, m3 +:+ rest) (matches grp (g +:+ m3 +:+ rest)) /\
              In (m3, rest) (matches post (m3 +:+ rest))).
  { intros t Ht. unfold match_group in Ht. apply head_In in Ht.
    apply in_flat_map in Ht as ([m1 s1] & H1 & Ht).
    apply in_flat_map in Ht as ([g' s2] & H2 & Ht).
    apply in_map_iff in Ht as ([m3 rest] & -> & H3).
    pose proof (matches_sound _ _ _ _ H1) as E1.
    pose proof (matches_sound _ _ _ _ H2) as E2.
    pose proof (matches_sound _ _ _ _ H3) as E3.
    subst s2 s1. exists m1, m3, rest. by subst t. }
  induction s as [|a s IH]; simpl.
  - destruct (match_group pre grp post "") eqn:Hm; [| done].
    intros [= ->]. destruct (Hhere _ Hm) as (m1 & m3 & rest & E & ?).
    exists "", m1, m3, rest. done.
  - destruct (match_group pre grp post (String a s)) eqn:Hm.
    + intros [= ->]. destruct (Hhere _ Hm) as (m1 & m3 & rest & E & ?).
      exists "", m1, m3, rest. done.
    + intros H. destruct (IH H) as (before & m1 & m3 & rest & -> & ?).
      exists (String a before), m1, m3, rest. done.
Qed.

Lemma re_chr_inv c s m rest :
  In (m, rest) (matches (re_chr c) s) -> m = String c "".
Proof.
  intros H. apply matches_set_inv in H as (a & -> & Ha & _).
  unfold re_set_matches in Ha. simpl in Ha.
  apply bool_decide_eq_true, list_elem_of_singleton in Ha. by subst.
Qed.

(** X20: the year that [parse_reference] finds is four digits that
    stand between parentheses in the text. *)
Theorem parse_reference_year ref_text y :
  ref_year (parse_reference ref_text) = Some y ->
  String.length y = 4%nat /\
  forallb is_digit (list_ascii_of_string y) = true /\
  exists before rest, ref_text = before +:+ "(" +:+ y +:+ ")" +:+ rest.
Proof.
  unfold parse_reference, year_pattern. simpl. intros H.
  apply search_group_sound in H
    as (before & m1 & m3 & rest & -> & H1 & H2 & H3).
  apply re_chr_inv in H1 as ->. apply re_chr_inv in H3 as ->.
  assert (Hy : String.length y = 4%nat /\
               forallb is_digit (list_ascii_of_string y) = true).
  { apply matches_seq_inv in H2 as (d1 & s1 & y1 & Hd1 & H2 & ->).
    apply matches_seq_inv in H2 as (d2 & s2 & y2 & Hd2 & H2 & ->).
    apply matches_seq_inv in H2 as (d3 & s3 & d4 & Hd3 & Hd4 & ->).
    apply matches_set_inv in Hd1 as (a1 & -> & Ha1 & _).
    apply matches_set_inv in Hd2 as (a2 & -> & Ha2 & _).
    apply matches_set_inv in Hd3 as (a3 & -> & Ha3 & _).
    apply matches_set_inv in Hd4 as (a4 & -> & Ha4 & _).
    rewrite re_d_matches in Ha1, Ha2, Ha3, Ha4.
    cbv [String.append]. simpl. by rewrite Ha1, Ha2, Ha3, Ha4. }
  destruct Hy as [Hl Hd]. split; [done |]. split; [done |].
  exists before, rest. done.
Qed.

Lemma parse_reference_year_witness :
  String.length "2018" = 4%nat /\
  forallb is_digit (list_ascii_of_string "2018") = true /\
  exists before rest,
    "Doe, J. (2018). A title. A Journal, 1-7."
    = before +:+ "(" +:+ "2018" +:+ ")" +:+ rest.
Proof.
  apply (parse_reference_year "Doe, J. (2018). A title. A Journal, 1-7." "2018").
  reflexivity.
Defined.

Lemma parse_reference_pages_sound ref_text p :
  ref_pages (parse_reference ref_text) = Some p ->
  exists before rest, ref_text = before +:+ ", " +:+ p +:+ "." +:+ rest.
Proof.
  unfold parse_reference, pages_pattern. simpl. intros H.
  apply search_group_sound in H
    as (before & m1 & m3 & rest & -> & H1 & H2 & H3).
  apply re_chr_inv in H3 as ->.
  apply matches_seq_inv in H1 as (c1 & s1 & c2 & Hc1 & Hc2 & ->).
  apply re_chr_inv in Hc1 as ->. apply re_chr_inv in Hc2 as ->.
  exists before, rest. by rewrite !append_assoc.
Qed.

(** X21: the pages that [parse_reference] finds are a text of digits and
    hyphens, not empty, that stands in the reference between a comma
    with a space and a period. *)
Theorem parse_reference_pages ref_text p :
  ref_pages (parse_reference ref_text) = Some p ->
  p <> "" /\
  (forall a, string_has a p -> sign_or_digit a) /\
  exists before rest, ref_text = before +:+ ", " +:+ p +:+ "." +:+ rest.
Proof.
  unfold parse_reference, pages_pattern. simpl. intros H.
  apply search_group_sound in H
    as (before & m1 & m3 & rest & -> & H1 & H2 & H3).
  apply re_chr_inv in H3 as ->.
  apply matches_seq_inv in H1 as (c1 & s1 & c2 & Hc1 & Hc2 & ->).
  apply re_chr_inv in Hc1 as ->. apply re_chr_inv in Hc2 as ->.
  apply matches_seq_inv in H2 as (d1 & s2 & o & Hd1 & Ho & ->).
  apply plus_matches_sound in Hd1 as (_ & Hne & Hd1).
  assert (Ho' : forall a, string_has a o -> sign_or_digit a).
  { simpl in Ho. apply in_app_iff in Ho as [Ho | [[= <- _] | []]].
    - apply in_flat_map in Ho as ([h s3] & Hh & Ho).
      apply in_map_iff in Ho as ([d2 s4] & [= <- _] & Hd2).
      apply (re_chr_inv "-"%char) in Hh as ->.
      apply plus_matches_sound in Hd2 as (_ & _ & Hd2).
      intros a Ha. apply string_has_app in Ha as [Ha | Ha].
      + left. unfold string_has in Ha. simpl in Ha.
        apply elem_of_cons in Ha as [-> | Ha]; [done | inversion Ha].
      + right. rewrite <- re_d_matches. by apply Hd2.
    - intros a Ha. inversion Ha. }
  split; [| split].
  - destruct d1; [done | discriminate].
  - intros a Ha. apply string_has_app in Ha as [Ha | Ha]; [| by apply Ho'].
    right. rewrite <- re_d_matches. by apply Hd1.
  - exists before, rest. by rewrite !append_assoc.
Qed.

Lemma parse_reference_pages_witness :
  "1-7" <> "" /\
  (forall a, string_has a "1-7" -> sign_or_digit a) /\
  exists before rest,
    "Doe, J. (2018). A title. A Journal, 1-7."
    = before +:+ ", " +:+ "1-7" +:+ "." +:+ rest.
Proof.
  apply (parse_reference_pages "Doe, J. (2018). A title. A Journal, 1-7." "1-7").
  reflexivity.
Defined.

Lemma string_has_cons a c s :
  string_has a (String c s) <-> a = c \/ string_has a s.
Proof. unfold string_has. simpl. apply elem_of_cons. Qed.

Lemma split_on_go_no_sep c s : forall cur,
  ~ string_has c s -> split_on_go c cur s = [cur +:+ s].
Proof.
  induction s as [|a s IH]; intros cur H; simpl.
  - by rewrite append_nil_r.
  - rewrite string_has_cons in H.
    rewrite bool_decide_eq_false_2 by (intros ->; tauto).
    rewrite IH by tauto. by rewrite append_assoc.
Qed.

Lemma split_on_go_parts c s : forall cur,
  ~ string_has c cur ->
  Forall (fun p => ~ string_has c p) (split_on_go c cur s).
Proof.
  induction s as [|a s IH]; intros cur H; simpl.
  - by constructor.
  - case_bool_decide as Ha.
    + constructor; [done |]. apply IH. intros H'. inversion H'.
    + apply IH. rewrite string_has_app, string_has_cons.
      intros [? | [? | H']]; [done | by subst | inversion H'].
Qed.

Lemma split_on_go_length c s : forall cur,
  string_has c s -> (1 < length (split_on_go c cur s))%nat.
Proof.
  induction s as [|a s IH]; intros cur H; simpl; [inversion H |].
  case_bool_decide as Ha.
  - simpl. destruct s; simpl; [lia |]. case_bool_decide; simpl; [lia |].
    match goal with |- (1 < S (length ?l))%nat =>
      assert (0 < length l)%nat; [| lia] end.
    clear. generalize ("" +:+ String a0 ""). revert s.
    induction s as [|b s IH]; intros cur; simpl; [lia |].
    case_bool_decide; simpl; [lia | apply IH].
  - apply IH. apply string_has_cons in H as [-> | H]; done.
Qed.

Lemma split_on_go_last_sep c t : forall cur,
  last (split_on_go c cur (t +:+ String c "")) = Some "" /\
  (1 < length (split_on_go c cur (t +:+ String c "")))%nat.
Proof.
  induction t as [|a t IH]; intros cur.
  - cbv [String.append]. simpl. rewrite bool_decide_eq_true_2 by done.
    simpl. split; [done | lia].
  - cbv [String.append]. fold String.append. simpl. case_bool_decide.
    + destruct (IH "") as [H1 H2]. split; [| simpl; lia].
      destruct (split_on_go c "" (t +:+ String c "")); [simpl in H2; lia | done].
    + apply IH.
Qed.

Lemma lstrip_has a s : string_has a (lstrip s) -> string_has a s.
Proof.
  induction s as [|c s IH]; simpl; [done |].
  destruct (is_space c); [| done]. rewrite string_has_cons. auto.
Qed.

Lemma rstrip_has a s : string_has a (rstrip s) -> string_has a s.
Proof.
  induction s as [|c s IH]; simpl; [done |].
  destruct (rstrip s) as [|d t] eqn:Hr.
  - destruct (is_space c); [intros H; inversion H |].
    rewrite !string_has_cons. intros [-> | H]; [auto | inversion H].
  - rewrite !string_has_cons. intros [-> | H]; [auto |].
    right. apply IH. by apply string_has_cons.
Qed.

Lemma strip_has a s : string_has a (strip s) -> string_has a s.
Proof. unfold strip. intros H. by apply lstrip_has, rstrip_has. Qed.

(** X22: a reference without a period is taken whole as the title,
    with an empty journal and no pages. *)
Theorem parse_reference_no_period ref_text :
  ~ string_has "."%char ref_text ->
  ref_title (parse_reference ref_text) = ref_text /\
  ref_journal (parse_reference ref_text) = "" /\
  ref_pages (parse_reference ref_text) = None.
Proof.
  intros H. split; [| split].
  - unfold parse_reference. cbn [ref_title]. unfold split_on.
    rewrite (split_on_go_no_sep "."%char ref_text "") by done.
    cbn [map length]. by rewrite bool_decide_eq_false_2 by lia.
  - unfold parse_reference. cbn [ref_journal]. unfold split_on.
    rewrite (split_on_go_no_sep "."%char ref_text "") by done.
    cbn [map length]. by rewrite bool_decide_eq_false_2 by lia.
  - destruct (ref_pages (parse_reference ref_text)) as [p|] eqn:Hp; [| done].
    apply parse_reference_pages_sound in Hp as (before & rest & ->).
    exfalso. apply H. rewrite !string_has_app.
    right. right. right. left. apply string_has_cons. by left.
Qed.

Lemma parse_reference_no_period_witness :
  ref_title (parse_reference "Doe (2018) A title") = "Doe (2018) A title" /\
  ref_journal (parse_reference "Doe (2018) A title") = "" /\
  ref_pages (parse_reference "Doe (2018) A title") = None.
Proof.
  apply (parse_reference_no_period "Doe (2018) A title").
  unfold string_has. simpl. intros H.
  repeat (apply elem_of_cons in H as [H | H]; [discriminate |]). inversion H.
Defined.

(** X23: for a reference that ends with a period, as the references of
    the script do, the journal comes out empty: the text after the last
    period is. *)
Theorem parse_reference_final_period t :
  ref_journal (parse_reference (t +:+ ".")) = "".
Proof.
  unfold parse_reference. cbn [ref_journal].
  destruct (split_on_go_last_sep "."%char t "") as [Hl Hn].
  fold (split_on "."%char (t +:+ ".")) in Hl, Hn.
  rewrite length_map. rewrite bool_decide_eq_true_2 by done.
  rewrite (fmap_last strip), Hl. reflexivity.
Qed.

(** X24: for a reference with a period, the title is what stands
    between the first period and the second, so it has no period
    itself. *)
Theorem parse_reference_title_no_period ref_text :
  string_has "."%char ref_text ->
  ~ string_has "."%char (ref_title (parse_reference ref_text)) /\
  exists seg, split_on "."%char ref_text !! 1%nat = Some seg /\
              ref_title (parse_reference ref_text) = strip seg.
Proof.
  intros H. unfold parse_reference. cbn [ref_title].
  pose proof (split_on_go_length "."%char ref_text "" H) as Hn.
  pose proof (split_on_go_parts "."%char ref_text "") as Hp.
  fold (split_on "."%char ref_text) in Hn, Hp.
  rewrite length_map, bool_decide_eq_true_2 by done.
  destruct (lookup_lt_is_Some_2 (split_on "."%char ref_text) 1%nat Hn)
    as [seg Hseg].
  rewrite list_lookup_fmap, Hseg. simpl. split; [| eauto].
  intros Hs. apply strip_has in Hs.
  assert (Hnil : ~ string_has "."%char "") by (intros H'; inversion H').
  specialize (Hp Hnil). rewrite Forall_forall in Hp.
  apply (Hp seg); [| done]. by eapply list_elem_of_lookup_2.
Qed.

Lemma parse_reference_title_no_period_witness :
  ~ string_has "."%char (ref_title (parse_reference "Doe, J. (2018). A title.")) /\
  exists seg, split_on "."%char "Doe, J. (2018). A title." !! 1%nat = Some seg /\
              ref_title (parse_reference "Doe, J. (2018). A title.") = strip seg.
Proof.
  apply (parse_reference_title_no_period "Doe, J. (2018). A title.").
  unfold string_has. simpl. do 6 apply list_elem_of_further. apply list_elem_of_here.
Defined.

Lemma parse_reference_year_sound ref_text y :
  ref_year (parse_reference ref_text) = Some y ->
  exists before rest, ref_text = before +:+ "(" +:+ y +:+ ")" +:+ rest.
Proof.
  unfold parse_reference, year_pattern. simpl. intros H.
  apply search_group_sound in H
    as (before & m1 & m3 & rest & -> & H1 & H2 & H3).
  apply re_chr_inv in H1 as ->. apply re_chr_inv in H3 as ->. eauto.
Qed.

(** X25: a reference without an opening parenthesis has no year, and
    the queries built for Crossref and Scopus then carry the text
    "None" where the year should stand. *)
Theorem queries_without_year ref_text :
  ~ string_has "("%char ref_text ->
  ref_year (parse_reference ref_text) = None /\
  crossref_query (parse_reference ref_text)
  = ref_title (parse_reference ref_text) +:+ " "
      +:+ ref_journal (parse_reference ref_text) +:+ " None" /\
  scopus_query (parse_reference ref_text)
  = "TITLE(" +:+ ref_title (parse_reference ref_text)
      +:+ ") AND PUBYEAR IS None".
Proof.
  intros H.
  assert (Hy : ref_year (parse_reference ref_text) = None).
  { destruct (ref_year (parse_reference ref_text)) as [y|] eqn:Hy; [| done].
    apply parse_reference_year_sound in Hy as (before & rest & ->).
    exfalso. apply H. rewrite !string_has_app. right. left.
    apply string_has_cons. by left. }
  unfold crossref_query, scopus_query. by rewrite Hy.
Qed.

Lemma queries_without_year_witness :
  ref_year (parse_reference "Doe. A title. A Journal, 1-7.") = None /\
  crossref_query (parse_reference "Doe. A title. A Journal, 1-7.")
  = ref_title (parse_reference "Doe. A title. A Journal, 1-7.") +:+ " "
      +:+ ref_journal (parse_reference "Doe. A title. A Journal, 1-7.")
      +:+ " None" /\
  scopus_query (parse_reference "Doe. A title. A Journal, 1-7.")
  = "TITLE(" +:+ ref_title (parse_reference "Doe. A title. A Journal, 1-7.")
      +:+ ") AND PUBYEAR IS None".
Proof.
  apply (queries_without_year "Doe. A title. A Journal, 1-7.").
  unfold string_has. simpl. intros H.
  repeat (apply elem_of_cons in H as [H | H]; [discriminate |]). inversion H.
Defined.
